(** * Row-versioned sync server: push pipeline and CVR differ

    A shallow embedding of [server/src/push.ts] and [server/src/pull/cvr.ts].
    The database is a record of tables; a table is the list of its rows.
    SQL statements are written out as list operations: [WHERE] is [filter],
    a projection is [fmap], [LIMIT] is [take], [NOT IN] / [NOT EXISTS] are
    negated membership tests, [DELETE ... WHERE] keeps the rows that do not
    match, and [INSERT ... ON CONFLICT DO UPDATE] is an upsert on the
    conflict key. *)

From stdpp Require Import base decidable option list strings gmap pretty.
From Stdlib Require Import ZArith.

Set Default Proof Using "Type".

(** ** Data model *)

(** [TableOrdinal] of cvr.ts: the tables a CVR can refer to. *)
Inductive Table : Type := issue | description | comment.

Definition TableOrdinal (table : Table) : Z :=
  match table with
  | issue => 1
  | description => 2
  | comment => 3
  end.

(** A row of a domain table ([SearchResult] in cvr.ts): only [id] and
    [rowversion] are read by the server code; everything else is payload. *)
Record DomainRow : Type := mkRow {
  r_id : string;
  r_rowversion : Z;
  r_fields : string;
}.

Record RowStore : Type := mkRowStore {
  tbl_issue : list DomainRow;
  tbl_description : list DomainRow;
  tbl_comment : list DomainRow;
}.

Definition table_rows (table : Table) (rs : RowStore) : list DomainRow :=
  match table with
  | issue => tbl_issue rs
  | description => tbl_description rs
  | comment => tbl_comment rs
  end.

Record ClientGroup : Type := mkClientGroup {
  cg_id : string;
  cg_cvrVersion : Z;
  cg_clientVersion : Z;
}.

Record Client : Type := mkClient {
  c_id : string;
  c_clientGroupID : string;
  c_lastMutationID : Z;
  c_clientVersion : Z;
}.

(** [CVR] of cvr.ts. *)
Record CVR : Type := mkCVR {
  cvr_clientGroupID : string;
  cvr_clientVersion : Z;
  cvr_order : Z;
}.

(** A row of "cvr_entry". *)
Record CVREntry : Type := mkCVREntry {
  ce_client_group_id : string;
  ce_order : Z;
  ce_tbl : Z;
  ce_row_id : string;
  ce_row_version : Z;
}.

(** A row of "cvr_delete_entry". *)
Record CVRDeleteEntry : Type := mkCVRDeleteEntry {
  de_client_group_id : string;
  de_order : Z;
  de_tbl : Z;
  de_row_id : string;
}.

(** The database the executor talks to. *)
Record Db : Type := mkDb {
  rows : RowStore;
  client_group : gmap string ClientGroup;
  client : gmap string Client;
  cvr : list CVR;
  cvr_entry : list CVREntry;
  cvr_delete_entry : list CVRDeleteEntry;
}.

#[global] Instance DomainRow_eq_dec : EqDecision DomainRow.
Proof. solve_decision. Defined.
#[global] Instance CVR_eq_dec : EqDecision CVR.
Proof. solve_decision. Defined.
#[global] Instance CVREntry_eq_dec : EqDecision CVREntry.
Proof. solve_decision. Defined.
#[global] Instance CVRDeleteEntry_eq_dec : EqDecision CVRDeleteEntry.
Proof. solve_decision. Defined.

Definition set_rows (rs : RowStore) (db : Db) : Db :=
  mkDb rs (client_group db) (client db) (cvr db) (cvr_entry db) (cvr_delete_entry db).
Definition set_client_group (m : gmap string ClientGroup) (db : Db) : Db :=
  mkDb (rows db) m (client db) (cvr db) (cvr_entry db) (cvr_delete_entry db).
Definition set_client (m : gmap string Client) (db : Db) : Db :=
  mkDb (rows db) (client_group db) m (cvr db) (cvr_entry db) (cvr_delete_entry db).
Definition set_cvr (l : list CVR) (db : Db) : Db :=
  mkDb (rows db) (client_group db) (client db) l (cvr_entry db) (cvr_delete_entry db).
Definition set_cvr_entry (l : list CVREntry) (db : Db) : Db :=
  mkDb (rows db) (client_group db) (client db) (cvr db) l (cvr_delete_entry db).
Definition set_cvr_delete_entry (l : list CVRDeleteEntry) (db : Db) : Db :=
  mkDb (rows db) (client_group db) (client db) (cvr db) (cvr_entry db) l.

(** ** Results and the transaction monad *)

(** A JavaScript call either returns or throws; the thrown value is kept as
    the string [String(e)] makes of it. *)
Inductive result (A : Type) : Type :=
  | Ok (a : A)
  | Throw (e : string).
Arguments Ok {A} a.
Arguments Throw {A} e.

(** Code running against the database: one statement, or a call that opens
    its own transactions.  It returns or throws, and leaves a database. *)
Definition Tx (A : Type) : Type := Db → Db * result A.

#[global] Instance Tx_ret : MRet Tx := λ A a db, (db, Ok a).
#[global] Instance Tx_bind : MBind Tx := λ A B k m db,
  match m db with
  | (db', Ok a) => k a db'
  | (db', Throw e) => (db', Throw e)
  end.

(** A connection inside a transaction, which [transact] hands to its callback
    as the executor: the database at BEGIN, the database as the transaction
    sees it, and whether a statement has failed.  PostgreSQL aborts a
    transaction at its first failed statement: what the transaction wrote is
    gone (the connection is back at the database of BEGIN), every later
    statement is refused until the transaction ends, and COMMIT is answered
    with ROLLBACK. *)
Record Conn : Type := mkConn {
  conn_begin : Db;
  conn_db : Db;
  conn_aborted : bool;
}.

(** BEGIN *)
Definition begin (db : Db) : Conn := mkConn db db false.

(** A database is read as the connection of a transaction just begun on
    it, and a connection as the database it sees; in a pair the expected
    type decides which reading applies. *)
Coercion begin : Db >-> Conn.
#[warnings="-ambiguous-paths"]
Coercion conn_db : Conn >-> Db.
Arguments pair {A B} & x y.

(** Code running inside a transaction: it returns or throws, and leaves the
    connection in some state. *)
Definition Exec (A : Type) : Type := Conn → Conn * result A.

#[global] Instance Exec_ret : MRet Exec := λ A a c, (c, Ok a).
#[global] Instance Exec_bind : MBind Exec := λ A B k m c,
  match m c with
  | (c', Ok a) => k a c'
  | (c', Throw e) => (c', Throw e)
  end.
Definition throw {A} (e : string) : Exec A := λ c, (c, Throw e).
(** [try { m } catch (e) { h e }] *)
Definition try_catch {A} (m : Exec A) (h : string → Exec A) : Exec A :=
  λ c, match m c with
       | (c', Ok a) => (c', Ok a)
       | (c', Throw e) => h e c'
       end.

(** The error of a statement sent to an aborted transaction. *)
Definition aborted_message : string :=
  "current transaction is aborted, commands ignored until end of transaction block".

(** [await executor(sql, params)]: one statement sent through the executor
    of a transaction.  A failed statement writes nothing and aborts the
    transaction. *)
Definition executor {A} (statement : Tx A) : Exec A :=
  λ c, if conn_aborted c then (c, Throw aborted_message)
       else match statement (conn_db c) with
            | (db', Ok a) => (mkConn (conn_begin c) db' false, Ok a)
            | (_, Throw e) => (mkConn (conn_begin c) (conn_begin c) true, Throw e)
            end.

Module Cvr.

(** *** getCVR / putCVR *)

Definition getCVR (clientGroupID : string) (order : Z) (db : Db) : option CVR :=
  match filter (λ c, cvr_clientGroupID c = clientGroupID ∧ cvr_order c = order) (cvr db) with
  | [] => None
  | row :: _ => Some (mkCVR clientGroupID (cvr_clientVersion row) order)
  end.

(** [INSERT INTO cvr ... ON CONFLICT ("client_group_id", "order") DO UPDATE
    SET client_version = excluded.client_version] *)
Fixpoint upsert_cvr (new : CVR) (table : list CVR) : list CVR :=
  match table with
  | [] => [new]
  | row :: table' =>
      if decide (cvr_clientGroupID row = cvr_clientGroupID new ∧ cvr_order row = cvr_order new)
      then mkCVR (cvr_clientGroupID row) (cvr_clientVersion new) (cvr_order row) :: table'
      else row :: upsert_cvr new table'
  end.

Definition putCVR (c : CVR) (db : Db) : Db :=
  set_cvr (upsert_cvr c (cvr db)) db.

(** *** findUnsentItems *)

(** The subquery
    [SELECT "row_id", "row_version" FROM "cvr_entry"
     WHERE "client_group_id" = $1 AND "order" <= $2 AND "tbl" = $3]. *)
Definition sent_pairs (table : Table) (clientGroupID : string) (order : Z)
    (db : Db) : list (string * Z) :=
  (λ e, (ce_row_id e, ce_row_version e)) <$>
  filter (λ e, ce_client_group_id e = clientGroupID
               ∧ (ce_order e ≤ order)%Z
               ∧ ce_tbl e = TableOrdinal table) (cvr_entry db).

(** [SELECT * FROM table t WHERE (t."id", t."rowversion") NOT IN (...) LIMIT $4].
    [limit] is a row count: PostgreSQL rejects a negative [LIMIT], so the
    type is [nat].  Without [ORDER BY] the rows come in table order. *)
Definition findUnsentItems (table : Table) (clientGroupID : string) (order : Z)
    (limit : nat) (db : Db) : list DomainRow :=
  take limit
    (filter (λ t, (r_id t, r_rowversion t) ∉ sent_pairs table clientGroupID order db)
            (table_rows table (rows db))).

(** *** findDeletions *)

Definition findDeletions (table : Table) (clientGroupID : string) (order : Z)
    (limit : nat) (db : Db) : list string :=
  take limit
    (ce_row_id <$>
     filter (λ e,
        ce_tbl e = TableOrdinal table
        ∧ ¬ Exists (λ t, r_id t = ce_row_id e) (table_rows table (rows db))
        ∧ ce_client_group_id e = clientGroupID
        ∧ (ce_order e ≤ order)%Z
        ∧ ¬ Exists (λ d, de_tbl d = TableOrdinal table
                         ∧ de_row_id d = ce_row_id e
                         ∧ de_client_group_id d = clientGroupID
                         ∧ (de_order d ≤ order)%Z) (cvr_delete_entry db))
       (cvr_entry db)).

(** *** dropCVREntries *)

(** Two [DELETE FROM ... WHERE "client_group_id" = $1 AND "order" > $2]. *)
Definition dropCVREntries (clientGroupID : string) (order : Z) (db : Db) : Db :=
  let db1 :=
    set_cvr_entry
      (filter (λ e, ¬ (ce_client_group_id e = clientGroupID ∧ (ce_order e > order)%Z))
              (cvr_entry db)) db in
  set_cvr_delete_entry
    (filter (λ d, ¬ (de_client_group_id d = clientGroupID ∧ (de_order d > order)%Z))
            (cvr_delete_entry db1)) db1.

(** *** recordUpdates *)

(** The conflict target of the insert: ("client_group_id", "tbl", "row_id"). *)
Definition entry_key (e : CVREntry) : string * Z * string :=
  (ce_client_group_id e, ce_tbl e, ce_row_id e).

(** One proposed row of [INSERT INTO cvr_entry ... ON CONFLICT (...) DO UPDATE
    SET "row_version" = excluded."row_version", "order" = excluded."order"]:
    the row with the same key, if any, gets the new version and order;
    otherwise the proposed row is added. *)
Fixpoint upsert_entry (excluded : CVREntry) (table : list CVREntry) : list CVREntry :=
  match table with
  | [] => [excluded]
  | row :: table' =>
      if decide (entry_key row = entry_key excluded)
      then mkCVREntry (ce_client_group_id row) (ce_order excluded) (ce_tbl row)
                      (ce_row_id row) (ce_row_version excluded) :: table'
      else row :: upsert_entry excluded table'
  end.

(** The [values] the loop of recordUpdates builds, five per update. *)
Definition update_values (table : Table) (clientGroupID : string) (order : Z)
    (updates : list DomainRow) : list CVREntry :=
  (λ u, mkCVREntry clientGroupID order (TableOrdinal table) (r_id u) (r_rowversion u))
  <$> updates.

(** A single [INSERT ... ON CONFLICT DO UPDATE] may not touch one row twice:
    PostgreSQL fails the statement when two proposed rows share the conflict
    key, and a failed statement writes nothing. *)
Definition recordUpdates (table : Table) (clientGroupID : string) (order : Z)
    (updates : list DomainRow) : Tx unit :=
  λ db,
    match updates with
    | [] => (db, Ok tt)
    | _ =>
        let values := update_values table clientGroupID order updates in
        if decide (NoDup (entry_key <$> values))
        then (set_cvr_entry (foldl (λ t v, upsert_entry v t) (cvr_entry db) values) db, Ok tt)
        else (db, Throw "ON CONFLICT DO UPDATE command cannot affect row a second time")
    end.

(** *** recordDeletes *)

Definition delete_values (table : Table) (clientGroupID : string) (order : Z)
    (ids : list string) : list CVRDeleteEntry :=
  (λ i, mkCVRDeleteEntry clientGroupID order (TableOrdinal table) i) <$> ids.

(** A plain [INSERT INTO cvr_delete_entry ... VALUES ...]. *)
Definition recordDeletes (table : Table) (clientGroupID : string) (order : Z)
    (ids : list string) (db : Db) : Db :=
  match ids with
  | [] => db
  | _ => set_cvr_delete_entry
           (cvr_delete_entry db ++ delete_values table clientGroupID order ids) db
  end.

End Cvr.

(** ** The push pipeline (push.ts) *)

(** One element of [z.array(issueUpdateWithIDSchema)]: [descriptionChange]
    may be [undefined]. *)
Record IssueUpdateWithID (IssueChanges DescriptionChange : Type) : Type := mkUpdate {
  upd_id : string;
  upd_issueChanges : IssueChanges;
  upd_descriptionChange : option DescriptionChange;
}.
Arguments mkUpdate {_ _} _ _ _.
Arguments upd_id {_ _} _.
Arguments upd_issueChanges {_ _} _.
Arguments upd_descriptionChange {_ _} _.

(** What push.ts imports from the package 'shared', which is not part of the
    sources at hand: the mutation vocabulary and the zod schemas of the
    mutation arguments.  They are taken as parameters; [parse] of a schema
    returns the parsed value or throws. *)
Class Shared : Type := {
  Args : Type;
  Issue : Type;
  Description : Type;
  IssueChanges : Type;
  DescriptionChange : Type;
  Comment : Type;
  comment_id : Comment → string;
  mutationNames : list string;
  issueWithDescriptionSchema_parse : Args → result (Issue * Description);
  issueUpdateWithIDSchema_array_parse :
    Args → result (list (IssueUpdateWithID IssueChanges DescriptionChange));
  commentSchema_parse : Args → result Comment;
}.

(** The Row Store writers push.ts imports from './data', also not part of
    the sources at hand, taken as parameters: each is a statement on the
    domain tables that returns with the tables it leaves, or fails and
    throws. *)
Class Data `{Shared} : Type := {
  putIssue : Issue → RowStore → RowStore * result unit;
  putDescription : Description → RowStore → RowStore * result unit;
  updateIssue : string → IssueChanges → RowStore → RowStore * result unit;
  updateDescription : string → DescriptionChange → RowStore → RowStore * result unit;
  createComment : Comment → RowStore → RowStore * result unit;
  deleteComment : string → RowStore → RowStore * result unit;
}.

(** [mutationSchema] and [pushRequestSchema]; [m_name] is checked against
    [mutationNames] by [pushRequestSchema_parse] below.  Mutation ids and
    version counters are integers, in the range where JavaScript's [+ 1] and
    comparisons on numbers are exact. *)
Record Mutation `{Shared} : Type := mkMutation {
  m_id : Z;
  m_clientID : string;
  m_name : string;
  m_args : Args;
}.

Record PushRequest `{Shared} : Type := mkPushRequest {
  clientGroupID : string;
  mutations : list Mutation;
}.
Arguments mkMutation {_} _ _ _ _.
Arguments mkPushRequest {_} _ _.

(** [pushRequestSchema.parse(requestBody)]: [name: z.enum(mutationNames)]
    rejects the whole body when one mutation has a name outside the
    vocabulary. *)
Definition pushRequestSchema_parse `{Shared} (requestBody : PushRequest)
    : result PushRequest :=
  if decide (Forall (λ m, m_name m ∈ mutationNames) (mutations requestBody))
  then Ok requestBody
  else Throw "ZodError: invalid_enum_value".

(** Modelled from the spec: [getClientGroupForUpdate] of './data' is not
    part of the sources at hand.  ClientGroup rows are created lazily, with
    zero version numbers. *)
Definition getClientGroupForUpdate (clientGroupID : string) : Tx ClientGroup :=
  λ db, (db, Ok (default (mkClientGroup clientGroupID 0 0)
                         (client_group db !! clientGroupID))).

(** Modelled from the spec: [getClientForUpdate] of './data' is not part of
    the sources at hand.  Client rows are created lazily, with zero version
    numbers. *)
Definition getClientForUpdate (clientID : string) : Tx Client :=
  λ db, (db, Ok (default (mkClient clientID "" 0 0) (client db !! clientID))).

(** Modelled from the spec: [putClientGroup] of './data' is not part of the
    sources at hand.  It writes back the ClientGroup row, keyed by id. *)
Definition putClientGroup (clientGroup : ClientGroup) : Tx unit :=
  λ db, (set_client_group (<[cg_id clientGroup := clientGroup]> (client_group db)) db, Ok tt).

(** Modelled from the spec: [putClient] of './data' is not part of the
    sources at hand.  It writes back the Client row, keyed by id. *)
Definition putClient (c : Client) : Tx unit :=
  λ db, (set_client (<[c_id c := c]> (client db)) db, Ok tt).

(** Modelled from the spec: [transact] of './pg' is not part of the sources
    at hand.  The callback runs in one transaction.  When it returns, COMMIT
    is sent: the writes are kept, unless a statement of the transaction has
    failed, in which case the database answers ROLLBACK, nothing is kept and
    the callback's value is returned all the same.  When it throws, the
    transaction is rolled back and the error is passed on. *)
Definition transact {A} (body : Exec A) : Tx A :=
  λ db, match body (begin db) with
        | (c, Ok a) => (if conn_aborted c then db else conn_db c, Ok a)
        | (_, Throw e) => (db, Throw e)
        end.

(** [schema.parse(args)] inside an async function: no database access. *)
Definition parse {A} (r : result A) : Exec A := λ c, (c, r).

(** A Row Store writer as a statement on the database. *)
Definition on_rows {A} (op : RowStore → RowStore * result A) : Tx A :=
  λ db, let '(rs, r) := op (rows db) in (set_rows rs db, r).

(** A promise that is started and never awaited: its statements go to the
    executor, so a failed one aborts the transaction like any other, but
    its rejection reaches nobody.  The callback is run to its end at the
    point where it is started; the interleaving of its later statements
    with the rest of the transaction is not modelled. *)
Definition detached (task : Exec unit) : Exec unit :=
  λ c, (fst (task c), Ok tt).

Fixpoint start_all (tasks : list (Exec unit)) : Exec unit :=
  match tasks with
  | [] => mret tt
  | task :: tasks' => detached task ;; start_all tasks'
  end.

(** A transaction that has so far written domain tables only. *)
Definition rows_only_conn (c : Conn) : Prop :=
  conn_db c = set_rows (rows (conn_db c)) (conn_begin c)
  ∧ (conn_aborted c = true → conn_db c = conn_begin c).

(** Code that writes to the domain tables only. *)
Definition rows_only {A} (t : Exec A) : Prop :=
  ∀ c, rows_only_conn c →
       rows_only_conn (fst (t c)) ∧ conn_begin (fst (t c)) = conn_begin c.

(** A failed or refused statement leaves the transaction aborted. *)
Definition throws_aborted {A} (t : Exec A) : Prop :=
  ∀ c c' e, t c = (c', Throw e) → conn_aborted c' = true.

(** Code that awaits all its statements returns with the transaction alive
    when it was alive before. *)
Definition returns_alive {A} (t : Exec A) : Prop :=
  ∀ c c' a, conn_aborted c = false → t c = (c', Ok a) → conn_aborted c' = false.

Section Push.
Context `{Data}.

Definition mutate (mutation : Mutation) : Exec unit :=
  let name := m_name mutation in
  if decide (name = "putIssue") then
    '(issue', description') ← parse (issueWithDescriptionSchema_parse (m_args mutation));
    executor (on_rows (putIssue issue')) ;;
    executor (on_rows (putDescription description'))
  else if decide (name = "updateIssues") then
    updates ← parse (issueUpdateWithIDSchema_array_parse (m_args mutation));
    start_all
      ((λ update,
          executor (on_rows (updateIssue (upd_id update) (upd_issueChanges update))) ;;
          match upd_descriptionChange update with
          | None => mret tt
          | Some change => executor (on_rows (updateDescription (upd_id update) change))
          end) <$> updates)
  else if decide (name = "putIssueComment") then
    c ← parse (commentSchema_parse (m_args mutation));
    executor (on_rows (createComment c))
  else if decide (name = "deleteIssueComment") then
    c ← parse (commentSchema_parse (m_args mutation));
    executor (on_rows (deleteComment (comment_id c)))
  else mret tt.

(** [`Mutation ${mutation.id} is from the future - aborting`] *)
Definition from_the_future (mutation : Mutation) : string :=
  "Mutation " +:+ pretty (m_id mutation) +:+ " is from the future - aborting".

(** [null | {error: string}] is [option string]. *)
Definition processMutation (clientGroupID : string) (mutation : Mutation)
    (error : option string) : Tx (option string) :=
  transact (
    baseClientGroup ← executor (getClientGroupForUpdate clientGroupID);
    baseClient ← executor (getClientForUpdate (m_clientID mutation));
    let nextClientVersion := (cg_clientVersion baseClientGroup + 1)%Z in
    let nextMutationID := (c_lastMutationID baseClient + 1)%Z in
    if decide (m_id mutation < nextMutationID)%Z then mret None
    else if decide (m_id mutation > nextMutationID)%Z then
      throw (from_the_future mutation)
    else
      caught ← match error with
               | None => try_catch (mutate mutation ;; mret None) (λ e, mret (Some e))
               | Some _ => mret None
               end;
      match caught with
      | Some e => mret (Some e)
      | None =>
          let nextClientGroup :=
            mkClientGroup clientGroupID (cg_cvrVersion baseClientGroup) nextClientVersion in
          let nextClient :=
            mkClient (m_clientID mutation) clientGroupID nextMutationID nextClientVersion in
          executor (putClientGroup nextClientGroup) ;;
          executor (putClient nextClient) ;;
          mret None
      end).

(** The body of the [for] loop of [push]. *)
Definition push_mutation (clientGroupID : string) (mutation : Mutation) : Tx unit :=
  r ← processMutation clientGroupID mutation None;
  match r with
  | Some error => processMutation clientGroupID mutation (Some error) ;; mret tt
  | None => mret tt
  end.

Fixpoint push_loop (clientGroupID : string) (ms : list Mutation) : Tx unit :=
  match ms with
  | [] => mret tt
  | mutation :: ms' => push_mutation clientGroupID mutation ;; push_loop clientGroupID ms'
  end.

(** [push]: the poke is sent after the loop, so exactly when no mutation
    threw ([pokes] below); it carries no data and touches no table. *)
Definition push (requestBody : PushRequest) : Tx unit :=
  λ db, match pushRequestSchema_parse requestBody with
        | Throw e => (db, Throw e)
        | Ok p => push_loop (clientGroupID p) (mutations p) db
        end.

Definition pokes (requestBody : PushRequest) (db : Db) : nat :=
  match snd (push requestBody db) with
  | Ok _ => 1
  | Throw _ => 0
  end.

(** The counters the claims speak of. *)
Definition lastMutationID (clientID : string) (db : Db) : Z :=
  c_lastMutationID (default (mkClient clientID "" 0 0) (client db !! clientID)).
Definition clientVersion (clientGroupID : string) (db : Db) : Z :=
  cg_clientVersion (default (mkClientGroup clientGroupID 0 0) (client_group db !! clientGroupID)).

(** The version bookkeeping of one consumed mutation slot: the rows
    [nextClientGroup] and [nextClient] of [processMutation], written over
    the rows read from [db]. *)
Definition advance (clientGroupID : string) (mutation : Mutation) (db : Db) : Db :=
  let baseClientGroup :=
    default (mkClientGroup clientGroupID 0 0) (client_group db !! clientGroupID) in
  let baseClient :=
    default (mkClient (m_clientID mutation) "" 0 0) (client db !! m_clientID mutation) in
  set_client
    (<[m_clientID mutation :=
         mkClient (m_clientID mutation) clientGroupID
                  (c_lastMutationID baseClient + 1) (cg_clientVersion baseClientGroup + 1)]>
       (client db))
    (set_client_group
       (<[clientGroupID :=
            mkClientGroup clientGroupID (cg_cvrVersion baseClientGroup)
                          (cg_clientVersion baseClientGroup + 1)]> (client_group db))
       db).

(** The cases of [mutate]'s switch. *)
Definition handled_names : list string :=
  ["putIssue"; "updateIssues"; "putIssueComment"; "deleteIssueComment"].

End Push.

(** ** The differ as the specification words it *)

Module DiffSpec.

(** A row of [table] whose (id, row-version) pair is absent from the CVREntry
    rows recorded for the client group, for that table, at or before
    [baseOrder]. *)
Definition unsent (table : Table) (clientGroupID : string) (baseOrder : Z)
    (db : Db) (r : DomainRow) : Prop :=
  r ∈ table_rows table (rows db)
  ∧ ¬ ∃ e, e ∈ cvr_entry db
           ∧ ce_client_group_id e = clientGroupID
           ∧ (ce_order e ≤ baseOrder)%Z
           ∧ ce_tbl e = TableOrdinal table
           ∧ ce_row_id e = r_id r
           ∧ ce_row_version e = r_rowversion r.

(** A row id present in CVREntry at or before [baseOrder] for the client
    group, absent from the current table, and with no CVRDeleteEntry at or
    before [baseOrder]. *)
Definition deleted (table : Table) (clientGroupID : string) (baseOrder : Z)
    (db : Db) (i : string) : Prop :=
  (∃ e, e ∈ cvr_entry db
        ∧ ce_client_group_id e = clientGroupID
        ∧ (ce_order e ≤ baseOrder)%Z
        ∧ ce_tbl e = TableOrdinal table
        ∧ ce_row_id e = i)
  ∧ (¬ ∃ t, t ∈ table_rows table (rows db) ∧ r_id t = i)
  ∧ ¬ ∃ d, d ∈ cvr_delete_entry db
           ∧ de_client_group_id d = clientGroupID
           ∧ (de_order d ≤ baseOrder)%Z
           ∧ de_tbl d = TableOrdinal table
           ∧ de_row_id d = i.

(** At most one CVREntry row per (clientGroupID, table, rowID). *)
Definition unique_keys (entries : list CVREntry) : Prop :=
  NoDup (Cvr.entry_key <$> entries).

End DiffSpec.

(** ** A small instance of 'shared' and './data'

    Used to run the pipeline on concrete requests. *)

Module Demo.

Inductive DemoArgs : Type :=
  | ArgsIssue (i d : DomainRow)
  | ArgsUpdates (us : list (IssueUpdateWithID string string))
  | ArgsComment (c : DomainRow)
  | ArgsOther (raw : string).

Definition shared : Shared := {|
  Args := DemoArgs;
  Issue := DomainRow;
  Description := DomainRow;
  IssueChanges := string;
  DescriptionChange := string;
  Comment := DomainRow;
  comment_id := r_id;
  mutationNames := ["putIssue"; "updateIssues"; "putIssueComment"; "deleteIssueComment"];
  issueWithDescriptionSchema_parse a :=
    match a with
    | ArgsIssue i d => Ok (i, d)
    | _ => Throw "ZodError: expected issue with description"
    end;
  issueUpdateWithIDSchema_array_parse a :=
    match a with
    | ArgsUpdates us => Ok us
    | _ => Throw "ZodError: expected array of issue updates"
    end;
  commentSchema_parse a :=
    match a with
    | ArgsComment c => Ok c
    | _ => Throw "ZodError: expected comment"
    end;
|}.

Fixpoint put_row (r : DomainRow) (table : list DomainRow) : list DomainRow :=
  match table with
  | [] => [r]
  | row :: table' =>
      if decide (r_id row = r_id r)
      then mkRow (r_id row) (r_rowversion row + 1) (r_fields r) :: table'
      else row :: put_row r table'
  end.

Definition update_row (i : string) (change : string) (table : list DomainRow)
    : list DomainRow :=
  (λ row, if decide (r_id row = i)
          then mkRow (r_id row) (r_rowversion row + 1) change else row) <$> table.

(** The tables refuse an empty title and an empty description body: the
    statement fails. *)
Definition data : @Data shared := {|
  putIssue (i : @Issue shared) rs :=
    (mkRowStore (put_row i (tbl_issue rs)) (tbl_description rs) (tbl_comment rs), Ok tt);
  putDescription (d : @Description shared) rs :=
    if decide (r_fields d = "")
    then (rs, Throw "Error: description must not be empty")
    else (mkRowStore (tbl_issue rs) (put_row d (tbl_description rs)) (tbl_comment rs), Ok tt);
  updateIssue i (change : @IssueChanges shared) rs :=
    if decide (change = "")
    then (rs, Throw "Error: title must not be empty")
    else (mkRowStore (update_row i change (tbl_issue rs)) (tbl_description rs)
                     (tbl_comment rs), Ok tt);
  updateDescription i (change : @DescriptionChange shared) rs :=
    if decide (change = "")
    then (rs, Throw "Error: description must not be empty")
    else (mkRowStore (tbl_issue rs) (update_row i change (tbl_description rs))
                     (tbl_comment rs), Ok tt);
  createComment (c : @Comment shared) rs :=
    (mkRowStore (tbl_issue rs) (tbl_description rs) (put_row c (tbl_comment rs)), Ok tt);
  deleteComment i rs :=
    (mkRowStore (tbl_issue rs) (tbl_description rs)
                (filter (λ row, r_id row ≠ i) (tbl_comment rs)), Ok tt);
|}.

Definition empty_db : Db :=
  mkDb (mkRowStore [] [] []) ∅ ∅ [] [] [].

Definition mutation (i : Z) (clientID name : string) (a : DemoArgs) : @Mutation shared :=
  @mkMutation shared i clientID name a.

Definition issue1 : DomainRow := mkRow "i1" 1 "title".
Definition comment1 : DomainRow := mkRow "k1" 1 "hello".

End Demo.

(** ** Keys and orders of the CVR tables *)

Module CvrKeys.

(** The conflict target of putCVR's insert: ("client_group_id", "order"). *)
Definition cvr_key (c : CVR) : string * Z :=
  (cvr_clientGroupID c, cvr_order c).

(** No CVREntry and no CVRDeleteEntry row of the client group is dated after
    [order]: the state [dropCVREntries] leaves. *)
Definition none_after (clientGroupID : string) (order : Z) (db : Db) : Prop :=
  (∀ e, e ∈ cvr_entry db → ce_client_group_id e = clientGroupID → (ce_order e ≤ order)%Z)
  ∧ (∀ d, d ∈ cvr_delete_entry db → de_client_group_id d = clientGroupID →
       (de_order d ≤ order)%Z).

End CvrKeys.

(** ** The client: filter menu and issue board *)

(** [Status] and [Priority] of 'shared', as the keys of [displayStrings] in
    top-filter.tsx list them. *)
Inductive Priority : Type := NONE | LOW | MEDIUM | HIGH | URGENT.
Inductive Status : Type := BACKLOG | TODO | IN_PROGRESS | DONE | CANCELED.

#[global] Instance Priority_eq_dec : EqDecision Priority.
Proof. solve_decision. Defined.
#[global] Instance Status_eq_dec : EqDecision Status.
Proof. solve_decision. Defined.
#[global] Instance Status_countable : Countable Status.
Proof.
  refine (inj_countable'
    (λ s, match s with
          | BACKLOG => 0 | TODO => 1 | IN_PROGRESS => 2 | DONE => 3 | CANCELED => 4
          end)
    (λ n, match n with
          | 0 => BACKLOG | 1 => TODO | 2 => IN_PROGRESS | 3 => DONE | _ => CANCELED
          end) _).
  by intros [].
Defined.

Module TopFilter.

(** [new Set(iterable)]: the elements in the order of their first
    occurrence. *)
Definition newSet {A} `{EqDecision A} (l : list A) : list A :=
  foldl (λ set x, if decide (x ∈ set) then set else set ++ [x]) [] l.

(** The handlers [onSelectPriority] and [onSelectStatus] of [TopFilter]:
    the value they pass to the setter of the filter state.  [filters] is the
    current state, [null] or an array. *)
Definition onSelect {A} `{EqDecision A} (filters : option (list A)) (x : A)
    : option (list A) :=
  let set := newSet (default [] filters) in
  let set' := if decide (x ∈ set) then filter (λ y, y ≠ x) set else set ++ [x] in
  match set' with
  | [] => None
  | _ => Some set'
  end.

Definition onSelectPriority : option (list Priority) → Priority → option (list Priority) :=
  onSelect.
Definition onSelectStatus : option (list Status) → Status → option (list Status) :=
  onSelect.

End TopFilter.

Module Board.

(** The fields of an [Issue] the board reads.  JavaScript compares issues by
    reference; a value of this type stands for one object, and a list of
    issues is taken to hold no two different objects with equal fields. *)
Record Issue : Type := mkIssue {
  i_id : string;
  i_status : Status;
  i_priority : Priority;
  i_kanbanOrder : string;
}.

#[global] Instance Issue_eq_dec : EqDecision Issue.
Proof. solve_decision. Defined.

(** [Partial<Issue>] as the board builds it: a key is absent ([None]) or
    present; [newKanbanOrderKeys[i]] is [undefined] ([Some None]) when the
    array is too short. *)
Record IssueChanges : Type := mkChanges {
  ch_kanbanOrder : option (option string);
  ch_status : option Status;
  ch_priority : option Priority;
}.

Record IssueUpdate : Type := mkIssueUpdate {
  u_issue : Issue;
  u_issueChanges : IssueChanges;
}.

(** lodash [groupBy]: the elements under the key they map to, each group in
    the order of the list. *)
Definition groupBy {A K} `{Countable K} (key : A → K) (l : list A) : gmap K (list A) :=
  foldl (λ acc x, <[key x := default [] (acc !! key x) ++ [x]]> acc) ∅ l.

Record IssuesByStatusType : Type := mkByStatus {
  by_BACKLOG : list Issue;
  by_TODO : list Issue;
  by_IN_PROGRESS : list Issue;
  by_DONE : list Issue;
  by_CANCELED : list Issue;
}.

(** [issuesByType[status]] *)
Definition column (t : IssuesByStatusType) (s : Status) : list Issue :=
  match s with
  | BACKLOG => by_BACKLOG t
  | TODO => by_TODO t
  | IN_PROGRESS => by_IN_PROGRESS t
  | DONE => by_DONE t
  | CANCELED => by_CANCELED t
  end.

(** [{...defaultIssueByType, ...issuesBySType}] *)
Definition getIssueByType (allIssues : list Issue) : IssuesByStatusType :=
  let issuesBySType := groupBy i_status allIssues in
  mkByStatus (default [] (issuesBySType !! BACKLOG))
             (default [] (issuesBySType !! TODO))
             (default [] (issuesBySType !! IN_PROGRESS))
             (default [] (issuesBySType !! DONE))
             (default [] (issuesBySType !! CANCELED)).

(** lodash [indexOf]: the first index of the value, or -1. *)
Fixpoint indexOf (l : list Issue) (x : Issue) : Z :=
  match l with
  | [] => -1
  | y :: l' =>
      if decide (y = x) then 0
      else let i := indexOf l' x in if decide (i < 0)%Z then -1 else (i + 1)%Z
  end.

(** The [for] loop of [getKanbanOrderIssueUpdates], from index [i] on: the
    issues collected in [issuesToReKey] and the [afterKey] it ends with. *)
Fixpoint collisions (beforeKey : option string) (l : list Issue)
    : list Issue * option string :=
  match l with
  | [] => ([], None)
  | x :: l' =>
      if decide (Some (i_kanbanOrder x) ≠ beforeKey) then ([], Some (i_kanbanOrder x))
      else let '(issuesToReKey, afterKey) := collisions beforeKey l' in
           (x :: issuesToReKey, afterKey)
  end.

(** [source] and [destination] of a [DropResult]. *)
Record DraggableLocation : Type := mkLocation {
  droppableId : Status;
  index : nat;
}.

Record DropResult : Type := mkDropResult {
  source : DraggableLocation;
  destination : option DraggableLocation;
}.

Section WithKeys.
(** [generateNKeysBetween] of the package 'fractional-indexing', taken as a
    parameter: it returns keys or throws. *)
Variable generateNKeysBetween : option string → option string → nat → result (list string).

Definition getKanbanOrderIssueUpdates (issueToMove issueToInsertBefore : Issue)
    (issues : list Issue) : result (list IssueUpdate) :=
  let indexInKanbanOrder := indexOf issues issueToInsertBefore in
  let beforeKey :=
    if decide (indexInKanbanOrder > 0)%Z
    then i_kanbanOrder <$> issues !! Z.to_nat (indexInKanbanOrder - 1)
    else None in
  if decide (indexInKanbanOrder < 0)%Z
  then Throw "TypeError: Cannot read properties of undefined (reading 'kanbanOrder')"
  else
    let '(issuesToReKey, afterKey) :=
      collisions beforeKey (drop (Z.to_nat indexInKanbanOrder) issues) in
    match generateNKeysBetween beforeKey afterKey (length issuesToReKey + 1) with
    | Throw e => Throw e
    | Ok newKanbanOrderKeys =>
        Ok (mkIssueUpdate issueToMove
              (mkChanges (Some (newKanbanOrderKeys !! 0%nat)) None None)
            :: imap (λ i issue,
                       mkIssueUpdate issue
                         (mkChanges (Some (newKanbanOrderKeys !! (i + 1)%nat)) None None))
                    issuesToReKey)
    end.

(** [handleDragEnd] of [IssueBoard]: [Ok None] when it returns without a
    call of [onUpdateIssues], [Ok (Some updates)] when it calls it. *)
Definition handleDragEnd (issues : list Issue) (drop : DropResult)
    : result (option (list IssueUpdate)) :=
  let issuesByType := getIssueByType issues in
  match destination drop with
  | None => Ok None
  | Some dest =>
      let sourceStatus := droppableId (source drop) in
      match column issuesByType sourceStatus !! index (source drop) with
      | None => Ok None
      | Some draggedIssue =>
          let newStatus := droppableId dest in
          let newIndex :=
            if decide (sourceStatus = newStatus ∧ index (source drop) < index dest)
            then index dest + 1 else index dest in
          let issueToInsertBefore := column issuesByType newStatus !! newIndex in
          if decide (Some draggedIssue = issueToInsertBefore) then Ok None
          else
            let issueUpdates :=
              match issueToInsertBefore with
              | Some before => getKanbanOrderIssueUpdates draggedIssue before issues
              | None => Ok [mkIssueUpdate draggedIssue (mkChanges None None None)]
              end in
            match issueUpdates with
            | Throw e => Throw e
            | Ok updates =>
                if decide (newStatus ≠ sourceStatus) then
                  match updates with
                  | [] => Throw "TypeError: Cannot read properties of undefined (reading 'issueChanges')"
                  | first :: rest =>
                      Ok (Some (mkIssueUpdate (u_issue first)
                                  (mkChanges (ch_kanbanOrder (u_issueChanges first))
                                             (Some newStatus)
                                             (ch_priority (u_issueChanges first)))
                                :: rest))
                  end
                else Ok (Some updates)
            end
      end
  end.

(** [handleChangePriority] of [IssueBoard]: the argument of
    [onUpdateIssues]. *)
Definition handleChangePriority (issue : Issue) (priority : Priority) : list IssueUpdate :=
  [mkIssueUpdate issue (mkChanges None None (Some priority))].

End WithKeys.

End Board.

(** * Properties *)

(** ** The CVR differ *)

Section DiffFacts.
Import Cvr DiffSpec.

Lemma take_length_filter {A} (P : A → Prop) `{!∀ x, Decision (P x)} (l : list A) :
  take (length l) (filter P l) = filter P l.
Proof. apply take_ge, length_filter. Qed.

Lemma sent_pairs_elem table g o db i v :
  (i, v) ∈ sent_pairs table g o db ↔
  ∃ e, e ∈ cvr_entry db ∧ ce_client_group_id e = g ∧ (ce_order e ≤ o)%Z
       ∧ ce_tbl e = TableOrdinal table ∧ ce_row_id e = i ∧ ce_row_version e = v.
Proof.
  unfold sent_pairs. rewrite list_elem_of_fmap. split.
  - intros (e & Heq & Hin). apply list_elem_of_filter in Hin as [(? & ? & ?) ?].
    injection Heq as -> ->. eauto 10.
  - intros (e & Hin & ? & ? & ? & <- & <-). exists e. split; [done|].
    apply list_elem_of_filter. auto.
Qed.

Lemma sent_pairs_none table g o db :
  (∀ e, e ∈ cvr_entry db → ce_client_group_id e ≠ g) →
  sent_pairs table g o db = [].
Proof.
  intros Hnone. unfold sent_pairs.
  destruct (filter _ (cvr_entry db)) as [|e l] eqn:Hf; [done|].
  assert (e ∈ filter (λ e, ce_client_group_id e = g ∧ (ce_order e ≤ o)%Z
                          ∧ ce_tbl e = TableOrdinal table) (cvr_entry db)) as Hin
    by (rewrite Hf; left).
  apply list_elem_of_filter in Hin as [(? & _) Hin]. by destruct (Hnone e Hin).
Qed.

Lemma filter_all {A} (P : A → Prop) `{!∀ x, Decision (P x)} (l : list A) :
  (∀ x, x ∈ l → P x) → filter P l = l.
Proof.
  induction l as [|x l IH]; intros Hall; [done|].
  rewrite filter_cons_True by (apply Hall; left).
  f_equal. apply IH. intros y Hy. apply Hall. by right.
Qed.

(** C6. With a limit that does not truncate, [findUnsentItems] returns
    exactly the rows of the table whose (id, row-version) pair has no
    CVREntry for the client group and table at order <= baseOrder, in table
    order; any limit keeps the first [limit] of them; and for a client group
    without CVR entries and a limit of at least the table size, the result
    is the whole table. *)
Theorem findUnsentItems_puts table g baseOrder limit db :
  let n := length (table_rows table (rows db)) in
  let all := findUnsentItems table g baseOrder n db in
  (∀ r, r ∈ all ↔ unsent table g baseOrder db r)
  ∧ all `sublist_of` table_rows table (rows db)
  ∧ findUnsentItems table g baseOrder limit db = take limit all
  ∧ length (findUnsentItems table g baseOrder limit db) ≤ limit
  ∧ ((∀ e, e ∈ cvr_entry db → ce_client_group_id e ≠ g) → n ≤ limit →
     findUnsentItems table g baseOrder limit db = table_rows table (rows db)).
Proof.
  intros n all. subst n all. unfold findUnsentItems.
  rewrite take_length_filter. split; [|split; [|split; [|split]]]; [|apply sublist_filter|done| |].
  - intros r. unfold unsent. rewrite list_elem_of_filter, sent_pairs_elem. tauto.
  - rewrite length_take. lia.
  - intros Hnone Hlim. rewrite sent_pairs_none by done.
    rewrite filter_all by (intros ? _; apply not_elem_of_nil).
    by apply take_ge.
Qed.

(** A never-synced client group in a store of three issues. *)
Lemma findUnsentItems_puts_witness :
  findUnsentItems issue "g1" 0 5
    (mkDb (mkRowStore [mkRow "a" 1 ""; mkRow "b" 4 ""; mkRow "c" 2 ""] [] [])
          ∅ ∅ [] [mkCVREntry "g2" 1 1 "a" 1] [])
  = [mkRow "a" 1 ""; mkRow "b" 4 ""; mkRow "c" 2 ""].
Proof.
  apply (findUnsentItems_puts issue "g1" 0 5).
  - intros e He. apply list_elem_of_singleton in He as ->. done.
  - simpl. lia.
Defined.

Lemma deleted_filter_iff table g o db e :
  (ce_tbl e = TableOrdinal table
   ∧ ¬ Exists (λ t, r_id t = ce_row_id e) (table_rows table (rows db))
   ∧ ce_client_group_id e = g
   ∧ (ce_order e ≤ o)%Z
   ∧ ¬ Exists (λ d, de_tbl d = TableOrdinal table ∧ de_row_id d = ce_row_id e
                    ∧ de_client_group_id d = g ∧ (de_order d ≤ o)%Z)
              (cvr_delete_entry db))
  ↔ (ce_client_group_id e = g ∧ (ce_order e ≤ o)%Z ∧ ce_tbl e = TableOrdinal table)
    ∧ (¬ ∃ t, t ∈ table_rows table (rows db) ∧ r_id t = ce_row_id e)
    ∧ ¬ ∃ d, d ∈ cvr_delete_entry db ∧ de_client_group_id d = g ∧ (de_order d ≤ o)%Z
             ∧ de_tbl d = TableOrdinal table ∧ de_row_id d = ce_row_id e.
Proof.
  rewrite !Exists_exists. split.
  - intros (? & Hr & ? & ? & Hd). split; [done|]. split.
    + intros (t & ? & ?). apply Hr. eauto.
    + intros (d & ? & ? & ? & ? & ?). apply Hd. exists d. auto.
  - intros ((? & ? & ?) & Hr & Hd). split; [done|]. split; [|split; [done|split; [done|]]].
    + intros (t & ? & ?). apply Hr. eauto.
    + intros (d & ? & ? & ? & ? & ?). apply Hd. exists d. auto.
Qed.

Lemma findDeletions_elem table g o db i :
  i ∈ findDeletions table g o (length (cvr_entry db)) db ↔ deleted table g o db i.
Proof.
  unfold findDeletions, deleted.
  rewrite take_ge by (rewrite length_fmap; apply length_filter).
  rewrite list_elem_of_fmap. split.
  - intros (e & -> & Hin). apply list_elem_of_filter in Hin as [HP Hin].
    apply deleted_filter_iff in HP as ((? & ? & ?) & ? & ?). eauto 10.
  - intros ((e & Hin & ? & ? & ? & <-) & Hr & Hd). exists e. split; [done|].
    apply list_elem_of_filter. split; [|done]. apply deleted_filter_iff. auto.
Qed.

Lemma cvr_delete_entry_recordDeletes table g o ids db d :
  d ∈ delete_values table g o ids → d ∈ cvr_delete_entry (recordDeletes table g o ids db).
Proof.
  unfold recordDeletes. destruct ids as [|i ids]; [by intros ?%elem_of_nil|].
  intros Hd. simpl. apply elem_of_app. by right.
Qed.

Lemma recordDeletes_frame table g o ids db :
  rows (recordDeletes table g o ids db) = rows db
  ∧ cvr_entry (recordDeletes table g o ids db) = cvr_entry db.
Proof. unfold recordDeletes. by destruct ids. Qed.

(** C7. With a limit that does not truncate, [findDeletions] returns exactly
    the row ids that have a CVREntry for the client group and table at
    order <= baseOrder, no row in the current table and no CVRDeleteEntry
    for the client group and table at order <= baseOrder; any limit keeps
    the first [limit] of them; and an id whose deletion [recordDeletes]
    wrote at an order <= baseOrder is not returned again. *)
Theorem findDeletions_deletes table g baseOrder limit db :
  let all := findDeletions table g baseOrder (length (cvr_entry db)) db in
  (∀ i, i ∈ all ↔ deleted table g baseOrder db i)
  ∧ findDeletions table g baseOrder limit db = take limit all
  ∧ length (findDeletions table g baseOrder limit db) ≤ limit
  ∧ (∀ ids order i, i ∈ ids → (order ≤ baseOrder)%Z →
       i ∉ findDeletions table g baseOrder limit (recordDeletes table g order ids db)).
Proof.
  intros all. subst all. split; [|split; [|split]].
  - intros i. apply findDeletions_elem.
  - unfold findDeletions.
    rewrite (take_ge _ (length (cvr_entry db)))
      by (rewrite length_fmap; apply length_filter). done.
  - unfold findDeletions. rewrite length_take. lia.
  - intros ids order i Hi Hle Hin.
    set (db' := recordDeletes table g order ids db) in *.
    assert (i ∈ findDeletions table g baseOrder (length (cvr_entry db')) db') as Hall.
    { unfold findDeletions in *. rewrite take_ge
        by (rewrite length_fmap; apply length_filter).
      by apply (subseteq_take limit). }
    apply findDeletions_elem in Hall as (_ & _ & Hd). apply Hd.
    exists (mkCVRDeleteEntry g order (TableOrdinal table) i). repeat split; try done.
    apply cvr_delete_entry_recordDeletes. unfold delete_values.
    apply list_elem_of_fmap. eauto.
Qed.

(** Issue "b" was sent at order 1 and is gone from the table: it is reported
    once, and not again after the deletion was recorded at order 2. *)
Lemma findDeletions_deletes_witness :
  let db := mkDb (mkRowStore [mkRow "a" 1 ""] [] []) ∅ ∅ []
                 [mkCVREntry "g1" 1 1 "a" 1; mkCVREntry "g1" 1 1 "b" 1] [] in
  findDeletions issue "g1" 1 10 db = ["b"]
  ∧ "b" ∉ findDeletions issue "g1" 2 10 (recordDeletes issue "g1" 2 ["b"] db).
Proof.
  intros db. split; [reflexivity|].
  apply (findDeletions_deletes issue "g1" 2 10 db).
  - apply list_elem_of_singleton. reflexivity.
  - lia.
Defined.

(** C8. [dropCVREntries g o] removes exactly the CVREntry and
    CVRDeleteEntry rows of group [g] with order > [o]: none of them is left,
    the rows of [g] with order <= [o] and the rows of every other group are
    all kept, as they were and in their order, and no other table changes. *)
Theorem dropCVREntries_exact g o db :
  let db' := dropCVREntries g o db in
  let gone_e e := ce_client_group_id e = g ∧ (ce_order e > o)%Z in
  let gone_d d := de_client_group_id d = g ∧ (de_order d > o)%Z in
  (∀ e, e ∈ cvr_entry db' ↔ e ∈ cvr_entry db ∧ ¬ gone_e e)
  ∧ (∀ d, d ∈ cvr_delete_entry db' ↔ d ∈ cvr_delete_entry db ∧ ¬ gone_d d)
  ∧ filter (λ e, ¬ gone_e e) (cvr_entry db') = filter (λ e, ¬ gone_e e) (cvr_entry db)
  ∧ filter (λ d, ¬ gone_d d) (cvr_delete_entry db')
    = filter (λ d, ¬ gone_d d) (cvr_delete_entry db)
  ∧ filter (λ e, ce_client_group_id e ≠ g) (cvr_entry db')
    = filter (λ e, ce_client_group_id e ≠ g) (cvr_entry db)
  ∧ filter (λ d, de_client_group_id d ≠ g) (cvr_delete_entry db')
    = filter (λ d, de_client_group_id d ≠ g) (cvr_delete_entry db)
  ∧ rows db' = rows db ∧ client_group db' = client_group db
  ∧ client db' = client db ∧ cvr db' = cvr db.
Proof.
  intros db' gone_e gone_d. subst db' gone_e gone_d. unfold dropCVREntries. simpl.
  split; [|split; [|split; [|split; [|split; [|split]]]]].
  - intros e. rewrite list_elem_of_filter. tauto.
  - intros d. rewrite list_elem_of_filter. tauto.
  - by apply list_filter_filter_r.
  - by apply list_filter_filter_r.
  - rewrite list_filter_filter. apply list_filter_iff. intros e. tauto.
  - rewrite list_filter_filter. apply list_filter_iff. intros d. tauto.
  - done.
Qed.

Lemma entry_key_eq e v :
  entry_key e = entry_key v →
  mkCVREntry (ce_client_group_id e) (ce_order v) (ce_tbl e) (ce_row_id e) (ce_row_version v) = v.
Proof. unfold entry_key. destruct e, v. simpl. by intros [= -> -> ->]. Qed.

Lemma upsert_entry_keys v l :
  entry_key <$> upsert_entry v l =
  if decide (entry_key v ∈ entry_key <$> l) then entry_key <$> l
  else (entry_key <$> l) ++ [entry_key v].
Proof.
  induction l as [|e l IH]; cbn [upsert_entry].
  - rewrite decide_False by apply not_elem_of_nil. done.
  - destruct (decide (entry_key e = entry_key v)) as [Heq|Hne].
    + rewrite decide_True by (rewrite fmap_cons, Heq; left). reflexivity.
    + rewrite !fmap_cons, IH. destruct (decide (entry_key v ∈ entry_key <$> l)) as [Hin|Hnin].
      * rewrite decide_True by (by right). done.
      * rewrite decide_False; [done|]. intros [?|?]%elem_of_cons; congruence.
Qed.

Lemma upsert_entry_unique v l : unique_keys l → unique_keys (upsert_entry v l).
Proof.
  unfold unique_keys. intros Hnd. rewrite upsert_entry_keys. case_decide; [done|].
  apply NoDup_app. split; [done|]. split; [|apply NoDup_singleton].
  intros k Hk ->%list_elem_of_singleton. done.
Qed.

Lemma upsert_entry_length v l :
  length (upsert_entry v l) =
  length l + (if decide (entry_key v ∈ entry_key <$> l) then 0 else 1).
Proof.
  rewrite <- (length_fmap entry_key (upsert_entry v l)), upsert_entry_keys.
  case_decide; [|rewrite length_app]; rewrite length_fmap; simpl; lia.
Qed.

Lemma filter_key_nil k l :
  k ∉ entry_key <$> l → filter (λ e, entry_key e = k) l = [].
Proof.
  induction l as [|e l IH]; [done|]. rewrite fmap_cons, not_elem_of_cons. intros [Hne Hnin].
  rewrite filter_cons_False by congruence. auto.
Qed.

Lemma upsert_entry_filter_eq v l :
  unique_keys l → filter (λ e, entry_key e = entry_key v) (upsert_entry v l) = [v].
Proof.
  unfold unique_keys. induction l as [|e l IH]; cbn [upsert_entry]; intros Hnd.
  - by rewrite filter_cons_True.
  - rewrite fmap_cons in Hnd. apply NoDup_cons in Hnd as [Hnin Hnd].
    destruct (decide (entry_key e = entry_key v)) as [Heq|Hne].
    + rewrite entry_key_eq by done. rewrite filter_cons_True by done.
      rewrite filter_key_nil by (by rewrite <- Heq). done.
    + rewrite filter_cons_False by done. auto.
Qed.

Lemma upsert_entry_filter_ne k v l :
  k ≠ entry_key v →
  filter (λ e, entry_key e = k) (upsert_entry v l) = filter (λ e, entry_key e = k) l.
Proof.
  intros Hne. induction l as [|e l IH]; cbn [upsert_entry].
  - rewrite filter_cons_False by congruence. done.
  - destruct (decide (entry_key e = entry_key v)) as [Heq|Hne'].
    + rewrite entry_key_eq by done.
      rewrite !filter_cons_False by congruence. done.
    + rewrite !filter_cons, IH. done.
Qed.

Lemma foldl_upsert_unique vs l :
  unique_keys l → unique_keys (foldl (λ t v, upsert_entry v t) l vs).
Proof.
  revert l. induction vs as [|v vs IH]; intros l Hl; simpl; [done|].
  by apply IH, upsert_entry_unique.
Qed.

Lemma foldl_upsert_filter_other k vs l :
  k ∉ entry_key <$> vs →
  filter (λ e, entry_key e = k) (foldl (λ t v, upsert_entry v t) l vs)
  = filter (λ e, entry_key e = k) l.
Proof.
  revert l. induction vs as [|v vs IH]; intros l; simpl; [done|].
  rewrite not_elem_of_cons. intros [Hne Hnin].
  rewrite IH by done. by apply upsert_entry_filter_ne.
Qed.

Lemma foldl_upsert_filter_new v vs l :
  unique_keys l → NoDup (entry_key <$> vs) → v ∈ vs →
  filter (λ e, entry_key e = entry_key v) (foldl (λ t v, upsert_entry v t) l vs) = [v].
Proof.
  revert l. induction vs as [|w vs IH]; intros l Hl Hnd Hin; simpl.
  - by apply elem_of_nil in Hin.
  - rewrite fmap_cons in Hnd. apply NoDup_cons in Hnd as [Hnin Hnd].
    apply elem_of_cons in Hin as [->|Hin].
    + rewrite foldl_upsert_filter_other by done. by apply upsert_entry_filter_eq.
    + apply IH; [by apply upsert_entry_unique|done|done].
Qed.

Lemma foldl_upsert_length vs l :
  NoDup (entry_key <$> vs) →
  length (foldl (λ t v, upsert_entry v t) l vs)
  = length l + length (filter (λ v, entry_key v ∉ entry_key <$> l) vs).
Proof.
  revert l. induction vs as [|v vs IH]; intros l Hnd; simpl; [lia|].
  rewrite fmap_cons in Hnd. apply NoDup_cons in Hnd as [Hnin Hnd].
  rewrite IH by done. rewrite upsert_entry_length, upsert_entry_keys.
  assert (filter (λ w, entry_key w ∉
            (if decide (entry_key v ∈ entry_key <$> l) then entry_key <$> l
             else (entry_key <$> l) ++ [entry_key v])) vs
          = filter (λ w, entry_key w ∉ entry_key <$> l) vs) as ->.
  { clear IH Hnd. induction vs as [|w vs IH]; [done|].
    rewrite fmap_cons, not_elem_of_cons in Hnin. destruct Hnin as [Hne Hnin].
    rewrite !filter_cons, IH by done.
    destruct (decide (entry_key v ∈ entry_key <$> l)); [done|].
    destruct (decide (entry_key w ∉ entry_key <$> l)) as [Hw|Hw].
    - rewrite decide_True; [done|]. rewrite not_elem_of_app, list_elem_of_singleton.
      split; [done|congruence].
    - rewrite decide_False; [done|]. rewrite not_elem_of_app. tauto. }
  rewrite filter_cons. destruct (decide (entry_key v ∈ entry_key <$> l)).
  - rewrite decide_False by tauto. lia.
  - rewrite decide_True by done. simpl. lia.
Qed.

Lemma update_values_keys table g o updates :
  entry_key <$> update_values table g o updates
  = (λ u, (g, TableOrdinal table, r_id u)) <$> updates.
Proof. unfold update_values. rewrite <- list_fmap_compose. done. Qed.

Lemma dropCVREntries_unique g o db l :
  unique_keys l → unique_keys (cvr_entry (dropCVREntries g o (set_cvr_entry l db))).
Proof.
  unfold unique_keys, dropCVREntries. simpl. intros Hnd.
  eapply sublist_NoDup; [exact Hnd|]. apply fmap_sublist, sublist_filter.

Qed.

Lemma recordUpdates_returns table g order updates db :
  NoDup (entry_key <$> update_values table g order updates) →
  recordUpdates table g order updates db
  = (set_cvr_entry (foldl (λ t v, upsert_entry v t) (cvr_entry db)
                          (update_values table g order updates)) db, Ok tt).
Proof.
  intros Hnd. unfold recordUpdates. destruct updates as [|u us]; [by destruct db|].
  by rewrite decide_True.
Qed.

Lemma recordUpdates_throws table g order updates db :
  ¬ NoDup (entry_key <$> update_values table g order updates) →
  ∃ e, recordUpdates table g order updates db = (db, Throw e).
Proof.
  intros Hdup. unfold recordUpdates. destruct updates as [|u us].
  - destruct Hdup. apply NoDup_nil_2.
  - rewrite decide_False by done. eauto.
Qed.

(** C9. If "cvr_entry" has at most one row per (clientGroupID, table, rowID)
    then so it has after [recordUpdates], whether it returns or throws, and
    after [dropCVREntries].  When [recordUpdates] returns, each recorded row
    is the only row of its key and carries the new row-version and order;
    rows of other keys are as before; and the table grows only by the
    updates whose key was not there (an update of a stored key adds no
    row).  When it throws, nothing has changed. *)
Theorem recordUpdates_unique table g order updates db :
  unique_keys (cvr_entry db) →
  let db' := fst (recordUpdates table g order updates db) in
  let r := snd (recordUpdates table g order updates db) in
  unique_keys (cvr_entry db')
  ∧ (∀ g' o', unique_keys (cvr_entry (dropCVREntries g' o' db')))
  ∧ (r = Ok tt →
       (∀ u, u ∈ updates →
          filter (λ e, entry_key e = (g, TableOrdinal table, r_id u)) (cvr_entry db')
          = [mkCVREntry g order (TableOrdinal table) (r_id u) (r_rowversion u)])
       ∧ (∀ k, k ∉ (λ u, (g, TableOrdinal table, r_id u)) <$> updates →
          filter (λ e, entry_key e = k) (cvr_entry db')
          = filter (λ e, entry_key e = k) (cvr_entry db))
       ∧ length (cvr_entry db')
         = length (cvr_entry db)
           + length (filter (λ u, (g, TableOrdinal table, r_id u) ∉ entry_key <$> cvr_entry db)
                            updates))
  ∧ (∀ e, r = Throw e → db' = db).
Proof.
  intros Huniq db' r. subst db' r.
  assert (∀ d, set_cvr_entry (cvr_entry d) d = d) as Hset by (by intros []).
  destruct (decide (NoDup (entry_key <$> update_values table g order updates))) as [Hnd|Hdup].
  - rewrite recordUpdates_returns by done. cbn [fst snd].
    change (cvr_entry (set_cvr_entry ?l db)) with l.
    set (l' := foldl _ _ _).
    assert (unique_keys l') as Hu' by by apply foldl_upsert_unique.
    split; [done|]. split; [intros; by apply dropCVREntries_unique|].
    split; [|done]. intros _. subst l'. split; [|split].
    + intros u Hu.
      apply (foldl_upsert_filter_new
               (mkCVREntry g order (TableOrdinal table) (r_id u) (r_rowversion u))); try done.
      unfold update_values. apply list_elem_of_fmap. eauto.
    + intros k Hk. apply foldl_upsert_filter_other. by rewrite update_values_keys.
    + rewrite foldl_upsert_length by done. f_equal.
      unfold update_values. clear. induction updates as [|u us IH]; [done|].
      rewrite fmap_cons, !filter_cons. cbn [entry_key ce_client_group_id ce_tbl ce_row_id].
      destruct (decide (_ ∉ _)); simpl; by rewrite IH.
  - destruct (recordUpdates_throws table g order updates db Hdup) as [e ->]. cbn [fst snd].
    split; [done|]. split; [|done].
    intros g' o'. rewrite <- (Hset db). by apply dropCVREntries_unique.
Qed.

(** Recording a new version of a stored row and a first version of another. *)
Lemma recordUpdates_unique_witness :
  let db := mkDb (mkRowStore [] [] []) ∅ ∅ [] [mkCVREntry "g1" 1 1 "a" 1] [] in
  unique_keys (cvr_entry db)
  ∧ cvr_entry (fst (recordUpdates issue "g1" 2 [mkRow "a" 5 ""; mkRow "b" 1 ""] db))
    = [mkCVREntry "g1" 2 1 "a" 5; mkCVREntry "g1" 2 1 "b" 1]
  ∧ unique_keys
      (cvr_entry (fst (recordUpdates issue "g1" 2 [mkRow "a" 5 ""; mkRow "b" 1 ""] db))).
Proof.
  intros db.
  assert (unique_keys (cvr_entry db)) as Hu by (apply NoDup_singleton).
  split; [exact Hu|]. split; [reflexivity|].
  apply (recordUpdates_unique issue "g1" 2 [mkRow "a" 5 ""; mkRow "b" 1 ""] db Hu).
Defined.

End DiffFacts.

(** ** The push pipeline *)

Section PushFacts.
Context `{D : Data}.

Lemma set_rows_id db : set_rows (rows db) db = db.
Proof. by destruct db. Qed.

Lemma set_rows_set_rows r1 r2 db : set_rows r1 (set_rows r2 db) = set_rows r1 db.
Proof. done. Qed.

Lemma rows_only_conn_begin db : rows_only_conn (begin db).
Proof. split; [|done]. simpl. by rewrite set_rows_id. Qed.

Lemma rows_only_ret {A} (a : A) : rows_only (mret a).
Proof. by intros c Hc. Qed.

Lemma rows_only_parse {A} (r : result A) : rows_only (parse r).
Proof. by intros c Hc. Qed.

Lemma rows_only_on_rows {A} (op : RowStore → RowStore * result A) :
  rows_only (executor (on_rows op)).
Proof.
  intros c Hc. unfold executor, on_rows.
  destruct (conn_aborted c) eqn:Hab; [done|]. destruct Hc as [Hc _].
  destruct (op (rows (conn_db c))) as [rs [a|e]]; simpl.
  - split; [|done]. split; [|done]. simpl. rewrite Hc. done.
  - split; [|done]. split; [|done]. simpl. by rewrite set_rows_id.
Qed.

Lemma rows_only_bind {A B} (t : Exec A) (k : A → Exec B) :
  rows_only t → (∀ a, rows_only (k a)) → rows_only (t ≫= k).
Proof.
  intros Ht Hk c Hc. unfold mbind, Exec_bind. destruct (Ht c Hc) as [Hc1 Hb1].
  destruct (t c) as [c1 [a|e]]; simpl in *; [|done].
  destruct (Hk a c1 Hc1) as [Hc2 Hb2]. split; [done|]. by rewrite Hb2.
Qed.

Lemma rows_only_detached (t : Exec unit) : rows_only t → rows_only (detached t).
Proof. intros Ht c Hc. apply (Ht c Hc). Qed.

Lemma rows_only_start_all (ts : list (Exec unit)) :
  Forall rows_only ts → rows_only (start_all ts).
Proof.
  induction 1 as [|t ts Ht Hts IH]; cbn [start_all].
  - apply rows_only_ret.
  - apply rows_only_bind; [by apply rows_only_detached|done].
Qed.

Lemma rows_only_mutate m : rows_only (mutate m).
Proof.
  unfold mutate. repeat case_decide.
  - apply rows_only_bind; [apply rows_only_parse|]. intros [i d].
    apply rows_only_bind; intros; apply rows_only_on_rows.
  - apply rows_only_bind; [apply rows_only_parse|]. intros us.
    apply rows_only_start_all, Forall_fmap, Forall_forall. intros u _. simpl.
    apply rows_only_bind; [apply rows_only_on_rows|]. intros _.
    destruct (upd_descriptionChange u); [apply rows_only_on_rows|apply rows_only_ret].
  - apply rows_only_bind; [apply rows_only_parse|]. intros. apply rows_only_on_rows.
  - apply rows_only_bind; [apply rows_only_parse|]. intros. apply rows_only_on_rows.
  - apply rows_only_ret.
Qed.

Lemma start_all_returns (tasks : list (Exec unit)) c : snd (start_all tasks c) = Ok tt.
Proof.
  revert c. induction tasks as [|t ts IH]; intros c; [reflexivity|].
  cbn [start_all]. unfold mbind, Exec_bind, detached. apply IH.
Qed.

(** The promises [updateIssues] starts are not awaited: whatever they do,
    [mutate] returns once the arguments have parsed. *)
Lemma mutate_updateIssues_returns m (c : Conn) updates :
  m_name m = "updateIssues" →
  issueUpdateWithIDSchema_array_parse (m_args m) = Ok updates →
  snd (mutate m c) = Ok tt.
Proof.
  intros Hname Hparse. unfold mutate. rewrite Hname.
  rewrite decide_False by discriminate. rewrite decide_True by done.
  unfold mbind at 1. unfold Exec_bind, parse. rewrite Hparse.
  apply start_all_returns.
Qed.

(** What [mutate] leaves of a transaction just begun on [db]. *)
Lemma mutate_frame m (db : Db) :
  conn_begin (fst (mutate m db)) = db
  ∧ client_group (fst (mutate m db)) = client_group db
  ∧ client (fst (mutate m db)) = client db
  ∧ cvr (fst (mutate m db)) = cvr db
  ∧ cvr_entry (fst (mutate m db)) = cvr_entry db
  ∧ cvr_delete_entry (fst (mutate m db)) = cvr_delete_entry db
  ∧ (conn_aborted (fst (mutate m db)) = true → conn_db (fst (mutate m db)) = db).
Proof.
  destruct (rows_only_mutate m (begin db) (rows_only_conn_begin db)) as [[Hdb Ha] Hb].
  simpl in Hb. rewrite Hb in Hdb, Ha.
  split; [done|]. do 5 (split; [by rewrite Hdb|]). done.
Qed.

Lemma lastMutationID_mutate m c (db : Db) :
  lastMutationID c (fst (mutate m db)) = lastMutationID c db.
Proof.
  unfold lastMutationID. by rewrite (proj1 (proj2 (proj2 (mutate_frame m db)))).
Qed.

(** *** Throwing and returning code *)

Lemma throws_aborted_executor {A} (q : Tx A) : throws_aborted (executor q).
Proof.
  intros c c' e. unfold executor. destruct (conn_aborted c) eqn:Hab.
  - by intros [= <- _].
  - destruct (q (conn_db c)) as [db' [a|e']]; [done|]. by intros [= <- _].
Qed.

Lemma throws_aborted_bind {A B} (t : Exec A) (k : A → Exec B) :
  throws_aborted t → (∀ a, throws_aborted (k a)) → throws_aborted (t ≫= k).
Proof.
  intros Ht Hk c c' e. unfold mbind, Exec_bind.
  destruct (t c) as [c1 [a|e1]] eqn:Hc1.
  - apply Hk.
  - intros [= <- _]. by eapply Ht.
Qed.

Lemma returns_alive_executor {A} (q : Tx A) : returns_alive (executor q).
Proof.
  intros c c' a Hab. unfold executor. rewrite Hab.
  destruct (q (conn_db c)) as [db' [a'|e']]; [|done]. by intros [= <- _].
Qed.

Lemma returns_alive_bind {A B} (t : Exec A) (k : A → Exec B) :
  returns_alive t → (∀ a, returns_alive (k a)) → returns_alive (t ≫= k).
Proof.
  intros Ht Hk c c' b Hab. unfold mbind, Exec_bind.
  destruct (t c) as [c1 [a|e1]] eqn:Hc1; [|done].
  apply Hk. by eapply Ht.
Qed.

Lemma parse_bind_throws {A B} (r : result A) (k : A → Exec B) c c' e :
  (∀ a, throws_aborted (k a)) →
  (parse r ≫= k) c = (c', Throw e) → c' = c ∨ conn_aborted c' = true.
Proof.
  intros Hk. unfold mbind, Exec_bind, parse. destruct r as [a|e0].
  - intros Hthrow. right. by eapply Hk.
  - intros [= <- _]. by left.
Qed.

(** Whatever [mutate] throws, the transaction has written nothing that can
    be kept: either no statement was sent, or the transaction is aborted. *)
Lemma mutate_throws m c c' e :
  mutate m c = (c', Throw e) → c' = c ∨ conn_aborted c' = true.
Proof.
  unfold mutate. repeat case_decide.
  - apply parse_bind_throws. intros [i d].
    apply throws_aborted_bind; intros; apply throws_aborted_executor.
  - apply parse_bind_throws. intros us c0 c1 e1 Hthrow.
    pose proof (start_all_returns
      ((λ update,
          executor (on_rows (updateIssue (upd_id update) (upd_issueChanges update))) ;;
          match upd_descriptionChange update with
          | None => mret tt
          | Some change => executor (on_rows (updateDescription (upd_id update) change))
          end) <$> us) c0) as Hret.
    rewrite Hthrow in Hret. discriminate.
  - apply parse_bind_throws. intros. apply throws_aborted_executor.
  - apply parse_bind_throws. intros. apply throws_aborted_executor.
  - done.
Qed.

(** Only [updateIssues], which awaits none of its statements, can return
    with the transaction aborted. *)
Lemma mutate_returns_alive m c c' :
  m_name m ≠ "updateIssues" → conn_aborted c = false →
  mutate m c = (c', Ok tt) → conn_aborted c' = false.
Proof.
  intros Hname Hab. unfold mutate. rewrite (decide_False (P := m_name m = "updateIssues")) by done.
  assert (∀ A B (r : result A) (k : A → Exec B), (∀ a, returns_alive (k a)) →
            returns_alive (parse r ≫= k)) as Hparse.
  { intros A B r k Hk. apply returns_alive_bind; [|done].
    intros c0 c1 a Hc0. unfold parse. by intros [= <- _]. }
  repeat case_decide.
  - intros Hret. eapply Hparse; [|exact Hab|exact Hret]. intros [i d].
    apply returns_alive_bind; intros; apply returns_alive_executor.
  - intros Hret. eapply Hparse; [|exact Hab|exact Hret]. intros.
    apply returns_alive_executor.
  - intros Hret. eapply Hparse; [|exact Hab|exact Hret]. intros.
    apply returns_alive_executor.
  - by intros [= <-].
Qed.

Lemma mutate_throws_begin m (db : Db) c' e :
  mutate m db = (c', Throw e) → conn_db c' = db.
Proof.
  intros Hthrow. destruct (mutate_throws m db c' e Hthrow) as [->|Hab]; [done|].
  pose proof (mutate_frame m db) as (_ & _ & _ & _ & _ & _ & Ha).
  rewrite Hthrow in Ha. by apply Ha.
Qed.

(** *** The ways through [processMutation] *)

Lemma processMutation_stale cg m error db :
  (m_id m < lastMutationID (m_clientID m) db + 1)%Z →
  processMutation cg m error db = (db, Ok None).
Proof.
  intros Hlt. unfold processMutation, transact, lastMutationID in *. simpl.
  unfold mbind, Exec_bind. simpl. by rewrite decide_True.
Qed.

Lemma processMutation_future cg m error db :
  (m_id m > lastMutationID (m_clientID m) db + 1)%Z →
  processMutation cg m error db = (db, Throw (from_the_future m)).
Proof.
  intros Hgt. unfold processMutation, transact, lastMutationID in *. simpl.
  unfold mbind, Exec_bind. simpl.
  rewrite decide_False by lia. by rewrite decide_True.
Qed.

Lemma processMutation_version_only cg m e db :
  m_id m = (lastMutationID (m_clientID m) db + 1)%Z →
  processMutation cg m (Some e) db = (advance cg m db, Ok None).
Proof.
  intros Heq. unfold processMutation, transact, lastMutationID in *. simpl.
  unfold mbind, Exec_bind. simpl.
  rewrite decide_False by lia. rewrite decide_False by lia. done.
Qed.

(** The first pass on the expected id: a returned effect is committed with
    both version rows, unless the transaction is aborted, and then the
    version writes fail and the pass throws; a thrown effect is caught and
    nothing is kept. *)
Lemma processMutation_effect cg m (db : Db) :
  m_id m = (lastMutationID (m_clientID m) db + 1)%Z →
  processMutation cg m None db =
  match mutate m db with
  | (c1, Ok _) =>
      if conn_aborted c1 then (db, Throw aborted_message)
      else (advance cg m (conn_db c1), Ok None)
  | (c1, Throw e) => (db, Ok (Some e))
  end.
Proof.
  intros Heq. unfold processMutation, transact, lastMutationID in *. simpl.
  unfold mbind, Exec_bind. simpl.
  rewrite decide_False by lia. rewrite decide_False by lia.
  unfold try_catch. pose proof (mutate_frame m db) as (Hb & Hg & Hc & _).
  pose proof (mutate_throws_begin m db) as Hthrow.
  change (mkConn db db false) with (begin db).
  destruct (mutate m (begin db)) as [c1 [[]|e]]; simpl in *.
  - unfold executor at 1. destruct (conn_aborted c1) eqn:Hab; [done|].
    simpl. unfold advance. rewrite Hg, Hc. done.
  - rewrite (Hthrow c1 e eq_refl). by destruct (conn_aborted c1).
Qed.

Lemma push_mutation_stale cg m db :
  (m_id m < lastMutationID (m_clientID m) db + 1)%Z →
  push_mutation cg m db = (db, Ok tt).
Proof.
  intros Hlt. unfold push_mutation, mbind, Tx_bind.
  by rewrite processMutation_stale.
Qed.

Lemma push_mutation_future cg m db :
  (m_id m > lastMutationID (m_clientID m) db + 1)%Z →
  push_mutation cg m db = (db, Throw (from_the_future m)).
Proof.
  intros Hgt. unfold push_mutation, mbind, Tx_bind.
  by rewrite processMutation_future.
Qed.

(** The loop body on the expected id. *)
Lemma push_mutation_next cg m (db : Db) :
  m_id m = (lastMutationID (m_clientID m) db + 1)%Z →
  push_mutation cg m db =
  match mutate m db with
  | (c1, Ok _) =>
      if conn_aborted c1 then (db, Throw aborted_message)
      else (advance cg m (conn_db c1), Ok tt)
  | (c1, Throw e) => (advance cg m db, Ok tt)
  end.
Proof.
  intros Heq. unfold push_mutation. unfold mbind at 1. unfold Tx_bind.
  rewrite processMutation_effect by done.
  destruct (mutate m db) as [c1 [[]|e]].
  - by destruct (conn_aborted c1).
  - unfold mbind, Tx_bind. by rewrite processMutation_version_only.
Qed.

Lemma lastMutationID_advance cg m db :
  lastMutationID (m_clientID m) (advance cg m db)
  = (lastMutationID (m_clientID m) db + 1)%Z.
Proof. unfold lastMutationID, advance. simpl. by rewrite lookup_insert_eq. Qed.

Lemma clientVersion_advance cg m db :
  clientVersion cg (advance cg m db) = (clientVersion cg db + 1)%Z.
Proof. unfold clientVersion, advance. simpl. by rewrite lookup_insert_eq. Qed.

Lemma push_loop_app cg pre post db :
  push_loop cg (pre ++ post) db =
  match push_loop cg pre db with
  | (db1, Ok _) => push_loop cg post db1
  | (db1, Throw e) => (db1, Throw e)
  end.
Proof.
  revert db. induction pre as [|m pre IH]; intros db; simpl; [done|].
  unfold mbind, Tx_bind. destruct (push_mutation cg m db) as [db1 [[]|e]]; [|done].
  apply IH.
Qed.

(** The outcomes of the loop body: the mutation is skipped, it is from the
    future, its slot is consumed, or its transaction was aborted behind a
    returned effect. *)
Lemma push_mutation_cases cg m db :
  ((m_id m < lastMutationID (m_clientID m) db + 1)%Z ∧ push_mutation cg m db = (db, Ok tt))
  ∨ ((m_id m > lastMutationID (m_clientID m) db + 1)%Z
     ∧ push_mutation cg m db = (db, Throw (from_the_future m)))
  ∨ (m_id m = (lastMutationID (m_clientID m) db + 1)%Z
     ∧ ∃ rs, push_mutation cg m db = (advance cg m (set_rows rs db), Ok tt))
  ∨ (m_id m = (lastMutationID (m_clientID m) db + 1)%Z
     ∧ m_name m = "updateIssues"
     ∧ conn_aborted (fst (mutate m db)) = true
     ∧ push_mutation cg m db = (db, Throw aborted_message)).
Proof.
  destruct (Z.lt_trichotomy (m_id m) (lastMutationID (m_clientID m) db + 1))
    as [Hlt|[Heq|Hgt]].
  - left. split; [done|]. by apply push_mutation_stale.
  - right. right. rewrite push_mutation_next by done.
    pose proof (mutate_frame m db) as (Hb & Hg & Hc & Hv & He & Hd & _).
    pose proof (mutate_returns_alive m db) as Halive.
    destruct (mutate m db) as [c1 [[]|e]]; simpl in *.
    + destruct (conn_aborted c1) eqn:Hab.
      * right. split; [done|]. split; [|done].
        destruct (decide (m_name m = "updateIssues")) as [|Hne]; [done|].
        specialize (Halive c1 Hne eq_refl eq_refl). congruence.
      * left. split; [done|]. exists (rows (conn_db c1)). do 2 f_equal.
        destruct (conn_db c1), db. simpl in *. by subst.
    + left. split; [done|]. exists (rows db). by rewrite set_rows_id.
  - right. left. split; [lia|]. apply push_mutation_future. lia.
Qed.

End PushFacts.

Section PushClaims.
Context `{D : Data}.

(** C1.  Each pass of [processMutation] is one transaction, and a mutation's
    effect is kept whole or not at all.  When the effect throws, the first
    pass keeps nothing of it and the error pass writes the version rows
    only, so the Row Store is as before: that is the case of a [putIssue]
    whose first write succeeds and whose second write fails.  When a
    statement of the effect has failed, thrown or not, the Row Store is as
    before.  And whenever the loop body leaves a changed Row Store, the
    effect has returned with every statement done, and the first pass alone,
    one transaction, has committed its writes together with both version
    rows. *)
Theorem mutation_is_atomic cg m (db : Db) :
  (∀ (c1 : Conn) e, mutate m db = (c1, Throw e) →
     rows (fst (processMutation cg m None db)) = rows db
     ∧ rows (fst (push_mutation cg m db)) = rows db)
  ∧ (∀ i d r1 r2 e,
       m_name m = "putIssue" →
       issueWithDescriptionSchema_parse (m_args m) = Ok (i, d) →
       m_id m = (lastMutationID (m_clientID m) db + 1)%Z →
       putIssue i (rows db) = (r1, Ok tt) →
       putDescription d r1 = (r2, Throw e) →
       processMutation cg m None db = (db, Ok (Some e))
       ∧ push_mutation cg m db = (advance cg m db, Ok tt))
  ∧ (conn_aborted (fst (mutate m db)) = true →
       rows (fst (processMutation cg m None db)) = rows db
       ∧ rows (fst (push_mutation cg m db)) = rows db)
  ∧ (rows (fst (push_mutation cg m db)) ≠ rows db →
       snd (mutate m db) = Ok tt
       ∧ conn_aborted (fst (mutate m db)) = false
       ∧ processMutation cg m None db = (advance cg m (fst (mutate m db)), Ok None)
       ∧ push_mutation cg m db = (advance cg m (fst (mutate m db)), Ok tt)
       ∧ rows (fst (push_mutation cg m db)) = rows (fst (mutate m db))
       ∧ lastMutationID (m_clientID m) (fst (push_mutation cg m db))
         = (lastMutationID (m_clientID m) db + 1)%Z
       ∧ clientVersion cg (fst (push_mutation cg m db)) = (clientVersion cg db + 1)%Z).
Proof.
  split; [|split; [|split]].
  - intros c1 e Hthrow.
    destruct (Z.lt_trichotomy (m_id m) (lastMutationID (m_clientID m) db + 1))
      as [Hlt|[Heq|Hgt]].
    + by rewrite processMutation_stale, push_mutation_stale.
    + rewrite processMutation_effect, push_mutation_next by done. by rewrite Hthrow.
    + by rewrite processMutation_future, push_mutation_future by lia.
  - intros i d r1 r2 e Hname Hparse Hid Hput Hdesc.
    assert (∃ c1 : Conn, mutate m db = (c1, Throw e)) as [c1 Hmut].
    { unfold mutate. rewrite decide_True by done.
      unfold mbind, Exec_bind, parse, executor, on_rows. rewrite Hparse. simpl.
      rewrite Hput. simpl. rewrite Hdesc. eauto. }
    rewrite processMutation_effect, push_mutation_next by done. by rewrite Hmut.
  - intros Hab.
    destruct (Z.lt_trichotomy (m_id m) (lastMutationID (m_clientID m) db + 1))
      as [Hlt|[Heq|Hgt]].
    + by rewrite processMutation_stale, push_mutation_stale.
    + rewrite processMutation_effect, push_mutation_next by done.
      destruct (mutate m db) as [c1 [[]|e]]; simpl in *; [|done].
      by rewrite Hab.
    + by rewrite processMutation_future, push_mutation_future by lia.
  - intros Hrows.
    destruct (Z.lt_trichotomy (m_id m) (lastMutationID (m_clientID m) db + 1))
      as [Hlt|[Heq|Hgt]].
    + rewrite push_mutation_stale in Hrows by done. done.
    + rewrite push_mutation_next in Hrows |- * by done.
      rewrite processMutation_effect by done.
      pose proof (mutate_frame m db) as (_ & Hg & Hc & _).
      destruct (mutate m db) as [c1 [[]|e]]; simpl in *; [|done].
      destruct (conn_aborted c1); [done|]. simpl.
      do 5 (split; [done|]).
      rewrite lastMutationID_advance, clientVersion_advance.
      unfold lastMutationID, clientVersion. by rewrite Hg, Hc.
    + rewrite push_mutation_future in Hrows by lia. done.
Qed.

(** C2 (amended).  A push request with a mutation whose name is outside the
    vocabulary is refused by [pushRequestSchema.parse]: [push] throws before
    it processes any mutation, stores nothing and sends no poke.  Past that
    check, a mutation whose name has no case in [mutate]'s switch writes
    nothing, consumes its version slot, and the loop goes on with the rest
    of the batch. *)
Theorem unknown_name_rejected requestBody db :
  (Exists (λ m, m_name m ∉ mutationNames) (mutations requestBody) →
     ∃ e, push requestBody db = (db, Throw e) ∧ pokes requestBody db = 0)
  ∧ (∀ cg m rest,
       m_name m ∉ handled_names →
       m_id m = (lastMutationID (m_clientID m) db + 1)%Z →
       mutate m db = (db, Ok tt)
       ∧ push_mutation cg m db = (advance cg m db, Ok tt)
       ∧ push_loop cg (m :: rest) db = push_loop cg rest (advance cg m db)).
Proof.
  split.
  - intros Hex. unfold pokes, push, pushRequestSchema_parse.
    rewrite decide_False; [eauto|].
    intros Hall. apply Exists_exists in Hex as (m & Hin & Hnot).
    rewrite Forall_forall in Hall. by apply Hnot, Hall.
  - intros cg m rest Hname Hid.
    assert (mutate m db = (db, Ok tt)) as Hmut.
    { unfold mutate, handled_names in *.
      repeat (rewrite decide_False; [|intros Heq; apply Hname; rewrite Heq;
                                       repeat (try (left; done); right)]).
      done. }
    split; [done|]. split.
    + rewrite push_mutation_next by done. by rewrite Hmut.
    + simpl. unfold mbind, Tx_bind.
      rewrite push_mutation_next by done. by rewrite Hmut.
Qed.


(** C4.  When the mutations before [m] have been processed without a fatal
    error and [m]'s id is above lastMutationID + 1, the loop throws at [m]:
    the state is the one the earlier mutations left, whatever follows [m] in
    the batch, and [push] passes the error on without a poke. *)
Theorem future_mutation_aborts cg pre m post db db1 :
  push_loop cg pre db = (db1, Ok tt) →
  (m_id m > lastMutationID (m_clientID m) db1 + 1)%Z →
  push_loop cg (pre ++ m :: post) db = (db1, Throw (from_the_future m))
  ∧ (Forall (λ m', m_name m' ∈ mutationNames) (pre ++ m :: post) →
       push (mkPushRequest cg (pre ++ m :: post)) db = (db1, Throw (from_the_future m))
       ∧ pokes (mkPushRequest cg (pre ++ m :: post)) db = 0).
Proof.
  intros Hpre Hgt.
  assert (push_loop cg (pre ++ m :: post) db = (db1, Throw (from_the_future m))) as Hloop.
  { rewrite push_loop_app, Hpre. simpl. unfold mbind, Tx_bind.
    by rewrite push_mutation_future. }
  split; [done|]. intros Hnames.
  unfold pokes, push, pushRequestSchema_parse. simpl.
  rewrite decide_True by done. simpl. by rewrite Hloop.
Qed.

(** C5.  A mutation with an id below lastMutationID + 1 is skipped: both
    [processMutation] and the loop body return without any change to the
    database.  Hence submitting a mutation a second time leaves the state
    the first submission produced, and ends without error when the first
    did. *)
Theorem replay_is_noop cg m db :
  (∀ error, (m_id m < lastMutationID (m_clientID m) db + 1)%Z →
     processMutation cg m error db = (db, Ok None)
     ∧ push_mutation cg m db = (db, Ok tt))
  ∧ (let db1 := fst (push_mutation cg m db) in
     fst (push_mutation cg m db1) = db1
     ∧ (snd (push_mutation cg m db) = Ok tt → push_mutation cg m db1 = (db1, Ok tt))).
Proof.
  split.
  - intros error Hlt. by rewrite processMutation_stale, push_mutation_stale.
  - destruct (Z.lt_trichotomy (m_id m) (lastMutationID (m_clientID m) db + 1))
      as [Hlt|[Heq|Hgt]].
    + rewrite push_mutation_stale by done. simpl.
      by rewrite push_mutation_stale.
    + pose proof (lastMutationID_mutate m (m_clientID m) db) as Hl.
      pose proof (push_mutation_next cg m db Heq) as Hnext.
      destruct (mutate m db) as [c1 [[]|e]]; simpl in *.
      * destruct (conn_aborted c1).
        -- rewrite Hnext. simpl. by rewrite Hnext.
        -- rewrite Hnext. simpl. rewrite push_mutation_stale; [done|].
           rewrite lastMutationID_advance, Hl. lia.
      * rewrite Hnext. simpl. rewrite push_mutation_stale; [done|].
        rewrite lastMutationID_advance. lia.
    + rewrite push_mutation_future by lia. simpl.
      rewrite push_mutation_future by lia. done.
Qed.

End PushClaims.

(** C10.  The pass of [processMutation] with a non-null error does not
    depend on the Row Store writers at all: it leaves the domain tables and
    the CVR tables as they are and writes at most the ClientGroup row of the
    pushed group and the Client row of the mutation's client, with the
    counters advanced by one when the id is the expected one and nothing
    otherwise.  After a mutation whose effect threw, the domain tables are
    the ones its single attempt left. *)
Theorem error_pass_skips_effect `{S : Shared} (D1 D2 : Data) cg m e db :
  @processMutation S D1 cg m (Some e) db = @processMutation S D2 cg m (Some e) db
  ∧ (let db' := fst (@processMutation S D1 cg m (Some e) db) in
     rows db' = rows db ∧ cvr db' = cvr db
     ∧ cvr_entry db' = cvr_entry db ∧ cvr_delete_entry db' = cvr_delete_entry db
     ∧ (∀ g, g ≠ cg → client_group db' !! g = client_group db !! g)
     ∧ (∀ c, c ≠ m_clientID m → client db' !! c = client db !! c)
     ∧ (m_id m = (lastMutationID (m_clientID m) db + 1)%Z → db' = advance cg m db)
     ∧ (m_id m ≠ (lastMutationID (m_clientID m) db + 1)%Z → db' = db))
  ∧ (∀ db1 err,
       m_id m = (lastMutationID (m_clientID m) db + 1)%Z →
       @mutate S D1 m db = (db1, Throw err) →
       @processMutation S D1 cg m None db = (db1, Ok (Some err))
       ∧ @processMutation S D1 cg m (Some err) db1 = (advance cg m db1, Ok None)
       ∧ rows (fst (@push_mutation S D1 cg m db)) = rows db1).
Proof.
  split; [reflexivity|]. split.
  - destruct (Z.lt_trichotomy (m_id m) (lastMutationID (m_clientID m) db + 1))
      as [Hlt|[Heq|Hgt]].
    + rewrite processMutation_stale by done. simpl.
      repeat split; try done. intros ?. lia.
    + rewrite processMutation_version_only by done. unfold advance. simpl.
      repeat split; try done.
      * intros g Hg. by rewrite lookup_insert_ne.
      * intros c Hc. by rewrite lookup_insert_ne.
    + rewrite processMutation_future by lia. simpl.
      repeat split; try done. intros ?. lia.
  - intros db1 err Hid Hmut.
    rewrite processMutation_effect, push_mutation_next by done.
    rewrite Hmut. simpl.
    rewrite (mutate_throws_begin m db db1 err Hmut).
    by rewrite processMutation_version_only.
Qed.

(** ** The pipeline on concrete requests *)

Section Runs.
Import Demo.

(** An issue with an empty description: the issue row is written, the
    description is refused, and the transaction keeps neither; the error
    pass consumes the version slot. *)
Lemma mutation_is_atomic_witness :
  let m := mutation 1 "c1" "putIssue" (ArgsIssue issue1 (mkRow "i1" 1 "")) in
  @processMutation shared data "g1" m None empty_db
  = (empty_db, Ok (Some "Error: description must not be empty"))
  ∧ @push_mutation shared data "g1" m empty_db
    = (@advance shared "g1" m empty_db, Ok tt)
  ∧ rows (fst (@push_mutation shared data "g1" m empty_db)) = mkRowStore [] [] []
  ∧ @lastMutationID "c1" (fst (@push_mutation shared data "g1" m empty_db)) = 1%Z.
Proof.
  intros m.
  destruct (@mutation_is_atomic shared data "g1" m empty_db) as (_ & Hput & _ & _).
  destruct (Hput issue1 (mkRow "i1" 1 "") (mkRowStore [issue1] [] [])
              (mkRowStore [issue1] [] []) "Error: description must not be empty")
    as [Hfirst Hboth]; try reflexivity.
  split; [exact Hfirst|]. split; [exact Hboth|].
  rewrite Hboth. split; reflexivity.
Defined.

(** C2, as stated, fails: a batch of a valid mutation and one with a name
    outside the vocabulary is refused as a whole; nothing is stored and no
    version slot is consumed. *)
Lemma unknown_name_fails_batch :
  let requestBody :=
    @mkPushRequest shared "g1"
      [mutation 1 "c1" "putIssueComment" (ArgsComment comment1);
       mutation 2 "c1" "archiveIssue" (ArgsOther "x");
       mutation 3 "c1" "putIssueComment" (ArgsComment comment1)] in
  snd (@push shared data requestBody empty_db) = Throw "ZodError: invalid_enum_value"
  ∧ fst (@push shared data requestBody empty_db) = empty_db
  ∧ @lastMutationID "c1" (fst (@push shared data requestBody empty_db)) = 0%Z.
Proof. intros requestBody. vm_compute. repeat split; reflexivity. Defined.

Lemma unknown_name_rejected_witness :
  let bad := mutation 1 "c1" "archiveIssue" (ArgsOther "x") in
  let next := mutation 2 "c1" "putIssueComment" (ArgsComment comment1) in
  (∃ e, @push shared data (@mkPushRequest shared "g1" [bad; next]) empty_db
        = (empty_db, Throw e))
  ∧ @push_loop shared data "g1" [bad; next] empty_db
    = @push_loop shared data "g1" [next] (@advance shared "g1" bad empty_db).
Proof.
  intros bad next.
  destruct (@unknown_name_rejected shared data (@mkPushRequest shared "g1" [bad; next]) empty_db)
    as [Hrej Hloop].
  split.
  - destruct Hrej as (e & He & _); [|by exists e].
    apply Exists_cons_hd. vm_compute. intros Hin.
    repeat (apply elem_of_cons in Hin as [Hin|Hin]; [discriminate Hin|]).
    by apply elem_of_nil in Hin.
  - apply (Hloop "g1" bad [next]); [|reflexivity].
    vm_compute. intros Hin.
    repeat (apply elem_of_cons in Hin as [Hin|Hin]; [discriminate Hin|]).
    by apply elem_of_nil in Hin.
Defined.


(** Mutation 1, then mutation 3 while 2 was never seen. *)
Lemma future_mutation_aborts_witness :
  let m1 := mutation 1 "c1" "putIssueComment" (ArgsComment comment1) in
  let m3 := mutation 3 "c1" "putIssueComment" (ArgsComment (mkRow "k3" 1 "late")) in
  let m4 := mutation 4 "c1" "putIssueComment" (ArgsComment (mkRow "k4" 1 "later")) in
  let db1 := fst (@push_loop shared data "g1" [m1] empty_db) in
  @push_loop shared data "g1" ([m1] ++ m3 :: [m4]) empty_db
  = (db1, Throw "Mutation 3 is from the future - aborting")
  ∧ tbl_comment (rows db1) = [comment1]
  ∧ @lastMutationID "c1" db1 = 1%Z.
Proof.
  intros m1 m3 m4 db1. split; [|split; reflexivity].
  assert (@push_loop shared data "g1" [m1] empty_db = (db1, Ok tt)) as Hpre
    by reflexivity.
  assert (m_id m3 > @lastMutationID "c1" db1 + 1)%Z as Hgt
    by (vm_compute; reflexivity).
  exact (proj1 (@future_mutation_aborts shared data "g1" [m1] m3 [m4] empty_db db1 Hpre Hgt)).
Defined.

(** Mutation 1 submitted twice. *)
Lemma replay_is_noop_witness :
  let m1 := mutation 1 "c1" "putIssueComment" (ArgsComment comment1) in
  let db1 := fst (@push_mutation shared data "g1" m1 empty_db) in
  @processMutation shared data "g1" m1 None db1 = (db1, Ok None)
  ∧ @push_mutation shared data "g1" m1 db1 = (db1, Ok tt).
Proof.
  intros m1 db1.
  apply (proj1 (@replay_is_noop shared data "g1" m1 db1) None).
  vm_compute. reflexivity.
Defined.

(** The version-only pass after a refused description. *)
Lemma error_pass_skips_effect_witness :
  let m := mutation 1 "c1" "putIssue" (ArgsIssue issue1 (mkRow "i1" 1 "")) in
  let db1 := fst (@mutate shared data m empty_db) in
  @processMutation shared data "g1" m (Some "Error: description must not be empty") db1
  = (@advance shared "g1" m db1, Ok None)
  ∧ rows (fst (@push_mutation shared data "g1" m empty_db)) = rows db1.
Proof.
  intros m db1.
  destruct (@error_pass_skips_effect shared data data "g1" m "" empty_db)
    as (_ & _ & Hone).
  destruct (Hone db1 "Error: description must not be empty") as (_ & Hpass & Hrows);
    [reflexivity|reflexivity|].
  split; [exact Hpass|exact Hrows].
Defined.

End Runs.

(** * Further properties *)

(** ** The CVR header: getCVR and putCVR *)

Section CvrHeaderFacts.
Import Cvr CvrKeys.

Lemma cvr_key_eq row c :
  cvr_clientGroupID row = cvr_clientGroupID c ∧ cvr_order row = cvr_order c →
  mkCVR (cvr_clientGroupID row) (cvr_clientVersion c) (cvr_order row) = c.
Proof. destruct row, c. simpl. by intros [-> ->]. Qed.

Lemma upsert_cvr_filter_eq c l :
  ∃ rest,
    filter (λ r, cvr_clientGroupID r = cvr_clientGroupID c ∧ cvr_order r = cvr_order c)
           (upsert_cvr c l) = c :: rest.
Proof.
  induction l as [|row l [rest IH]]; cbn [upsert_cvr].
  - exists []. by rewrite filter_cons_True.
  - case_decide as Hk.
    + rewrite cvr_key_eq by done. rewrite filter_cons_True by done. eauto.
    + rewrite filter_cons_False by done. eauto.
Qed.

Lemma upsert_cvr_filter_ne g o c l :
  ¬ (g = cvr_clientGroupID c ∧ o = cvr_order c) →
  filter (λ r, cvr_clientGroupID r = g ∧ cvr_order r = o) (upsert_cvr c l)
  = filter (λ r, cvr_clientGroupID r = g ∧ cvr_order r = o) l.
Proof.
  intros Hne. induction l as [|row l IH]; cbn [upsert_cvr].
  - rewrite filter_cons_False; [done|]. intros [<- <-]. by apply Hne.
  - case_decide as Hk.
    + rewrite cvr_key_eq by done.
      rewrite !filter_cons_False; [done| |].
      * intros [<- <-]. apply Hne. by destruct Hk.
      * intros [<- <-]. by apply Hne.
    + rewrite !filter_cons, IH. done.
Qed.

(** X1. Reading a CVR header back: after [putCVR c], [getCVR] at [c]'s
    client group and order returns [c]; at any other (client group, order)
    it returns what it returned before. *)
Theorem getCVR_putCVR c g o db :
  getCVR g o (putCVR c db) =
  if decide (g = cvr_clientGroupID c ∧ o = cvr_order c) then Some c
  else getCVR g o db.
Proof.
  unfold getCVR, putCVR. cbn [cvr set_cvr]. case_decide as Hk.
  - destruct Hk as [-> ->]. destruct (upsert_cvr_filter_eq c (cvr db)) as [rest ->].
    by destruct c.
  - by rewrite upsert_cvr_filter_ne.
Qed.

(** X2. [getCVR] returns [undefined] exactly when "cvr" has no row for the
    client group and order; what it returns otherwise carries the asked
    client group and order and the client version of a stored row. *)
Theorem getCVR_lookup g o db :
  (getCVR g o db = None ↔
     ¬ ∃ row, row ∈ cvr db ∧ cvr_clientGroupID row = g ∧ cvr_order row = o)
  ∧ (∀ c, getCVR g o db = Some c →
       cvr_clientGroupID c = g ∧ cvr_order c = o ∧ c ∈ cvr db).
Proof.
  unfold getCVR.
  destruct (filter _ (cvr db)) as [|row l] eqn:Hf.
  - split; [|done]. split; [|done]. intros _ (row & Hin & Hg & Ho).
    assert (row ∈ filter (λ c, cvr_clientGroupID c = g ∧ cvr_order c = o) (cvr db)) as Hin'
      by (apply list_elem_of_filter; auto).
    rewrite Hf in Hin'. by apply elem_of_nil in Hin'.
  - assert (row ∈ filter (λ c, cvr_clientGroupID c = g ∧ cvr_order c = o) (cvr db)) as Hin
      by (rewrite Hf; left).
    apply list_elem_of_filter in Hin as [[Hg Ho] Hin]. split.
    + split; [done|]. intros Hno. destruct Hno. eauto.
    + intros c [= <-]. simpl. split; [done|]. split; [done|].
      destruct row. simpl in *. by subst.
Qed.

Lemma upsert_cvr_keys c l :
  cvr_key <$> upsert_cvr c l =
  if decide (cvr_key c ∈ cvr_key <$> l) then cvr_key <$> l
  else (cvr_key <$> l) ++ [cvr_key c].
Proof.
  induction l as [|row l IH]; cbn [upsert_cvr].
  - rewrite decide_False by apply not_elem_of_nil. done.
  - destruct (decide (cvr_clientGroupID row = cvr_clientGroupID c
                      ∧ cvr_order row = cvr_order c)) as [Hk|Hk].
    + rewrite decide_True; [reflexivity|]. rewrite fmap_cons.
      destruct Hk as [Hg Ho]. unfold cvr_key at 1. rewrite <- Hg, <- Ho. left.
    + rewrite !fmap_cons, IH. destruct (decide (cvr_key c ∈ cvr_key <$> l)) as [Hin|Hnin].
      * rewrite decide_True by (by right). done.
      * rewrite decide_False; [done|]. intros [Heq|?]%elem_of_cons; [|done].
        apply Hk. unfold cvr_key in Heq. by injection Heq as -> ->.
Qed.

Lemma upsert_cvr_upsert_cvr c1 c2 l :
  cvr_key c1 = cvr_key c2 → upsert_cvr c2 (upsert_cvr c1 l) = upsert_cvr c2 l.
Proof.
  unfold cvr_key. intros [= Hg Ho]. induction l as [|row l IH]; cbn [upsert_cvr].
  - rewrite decide_True by done. f_equal. apply cvr_key_eq. done.
  - destruct (decide (cvr_clientGroupID row = cvr_clientGroupID c1
                      ∧ cvr_order row = cvr_order c1)) as [Hk|Hk].
    + cbn [upsert_cvr cvr_clientGroupID cvr_order].
      rewrite !decide_True by (by rewrite <- Hg, <- Ho). done.
    + cbn [upsert_cvr]. rewrite !decide_False by (by rewrite <- Hg, <- Ho).
      by rewrite IH.
Qed.

(** X3. [putCVR] is an upsert on (client group, order): it keeps "cvr" at
    one row per key, adds a row only when the key is new, writes only the
    "cvr" table, and of two writes to one key the later one wins. *)
Theorem putCVR_upsert c db :
  (NoDup (cvr_key <$> cvr db) → NoDup (cvr_key <$> cvr (putCVR c db)))
  ∧ length (cvr (putCVR c db))
    = length (cvr db) + (if decide (cvr_key c ∈ cvr_key <$> cvr db) then 0 else 1)
  ∧ (∀ c', cvr_key c' = cvr_key c → putCVR c (putCVR c' db) = putCVR c db)
  ∧ rows (putCVR c db) = rows db ∧ client_group (putCVR c db) = client_group db
  ∧ client (putCVR c db) = client db ∧ cvr_entry (putCVR c db) = cvr_entry db
  ∧ cvr_delete_entry (putCVR c db) = cvr_delete_entry db.
Proof.
  unfold putCVR. cbn [cvr set_cvr]. split; [|split; [|split]].
  - intros Hnd. rewrite upsert_cvr_keys. case_decide; [done|].
    apply NoDup_app. split; [done|]. split; [|apply NoDup_singleton].
    intros k Hk ->%list_elem_of_singleton. done.
  - rewrite <- (length_fmap cvr_key (upsert_cvr c (cvr db))), upsert_cvr_keys.
    case_decide; [|rewrite length_app]; rewrite length_fmap; simpl; lia.
  - intros c' Hk. unfold set_cvr. cbn. by rewrite upsert_cvr_upsert_cvr.
  - done.
Qed.

(** An empty "cvr" table has no header; a stored header is found. *)
Lemma getCVR_lookup_witness :
  Cvr.getCVR "g1" 2 Demo.empty_db = None
  ∧ mkCVR "g1" 5 2 ∈ cvr (Cvr.putCVR (mkCVR "g1" 5 2) Demo.empty_db).
Proof.
  split.
  - apply (proj1 (getCVR_lookup "g1" 2 Demo.empty_db)).
    intros (row & Hin & _). by apply elem_of_nil in Hin.
  - apply (proj2 (getCVR_lookup "g1" 2 (Cvr.putCVR (mkCVR "g1" 5 2) Demo.empty_db))
             (mkCVR "g1" 5 2) eq_refl).
Defined.

(** Two writes to the header of ("g1", 2). *)
Lemma putCVR_upsert_witness :
  Cvr.putCVR (mkCVR "g1" 7 2) (Cvr.putCVR (mkCVR "g1" 5 2) Demo.empty_db)
  = Cvr.putCVR (mkCVR "g1" 7 2) Demo.empty_db
  ∧ NoDup (cvr_key <$> cvr (Cvr.putCVR (mkCVR "g1" 7 2) Demo.empty_db)).
Proof.
  destruct (putCVR_upsert (mkCVR "g1" 7 2) Demo.empty_db) as (Hnd & _ & Hlast & _).
  split.
  - apply Hlast. reflexivity.
  - apply Hnd. apply NoDup_nil_2.
Defined.

End CvrHeaderFacts.

(** ** How the operations of the differ compose *)

Section DiffComposition.
Import Cvr DiffSpec CvrKeys.

Lemma filter_ext_elem {A} (P Q : A → Prop) `{!∀ x, Decision (P x)} `{!∀ x, Decision (Q x)}
    (l : list A) :
  (∀ x, x ∈ l → P x ↔ Q x) → filter P l = filter Q l.
Proof.
  induction l as [|x l IH]; intros Hext; [done|].
  rewrite !filter_cons, IH by (intros y Hy; apply Hext; by right).
  destruct (decide (P x)) as [HP|HP], (decide (Q x)) as [HQ|HQ]; try done.
  - destruct HQ. apply Hext; [left|done].
  - destruct HP. apply Hext; [left|done].
Qed.

Lemma filter_not_in_take {A} `{EqDecision A} (l : list A) n :
  NoDup l → filter (λ x, x ∉ take n l) l = drop n l.
Proof.
  revert n. induction l as [|x l IH]; intros n Hnd; [by destruct n|].
  apply NoDup_cons in Hnd as [Hx Hnd]. destruct n as [|n]; cbn [take drop].
  - apply filter_all. intros y _. apply not_elem_of_nil.
  - rewrite filter_cons_False by (intros Hnot; apply Hnot; left).
    rewrite <- (IH n Hnd). apply filter_ext_elem. intros y Hy.
    rewrite not_elem_of_cons. split; [tauto|]. intros Hny. split; [|done].
    intros ->. done.
Qed.

Lemma filter_fmap_comm {A B} (f : A → B) (P : B → Prop) `{!∀ y, Decision (P y)}
    (l : list A) :
  filter P (f <$> l) = f <$> filter (λ x, P (f x)) l.
Proof.
  induction l as [|x l IH]; [done|]. rewrite fmap_cons, !filter_cons, IH.
  by destruct (decide (P (f x))).
Qed.

Lemma NoDup_fmap_eq {A B} (f : A → B) (l : list A) x y :
  NoDup (f <$> l) → x ∈ l → y ∈ l → f x = f y → x = y.
Proof.
  induction l as [|z l IH]; [by intros _ ?%elem_of_nil|].
  rewrite fmap_cons. intros [Hz Hnd]%NoDup_cons [->|Hx]%elem_of_cons [->|Hy]%elem_of_cons Heq.
  - done.
  - destruct Hz. rewrite Heq. apply list_elem_of_fmap. eauto.
  - destruct Hz. rewrite <- Heq. apply list_elem_of_fmap. eauto.
  - by apply IH.
Qed.

Lemma sent_pairs_dropCVREntries table g base g' o db :
  g ≠ g' ∨ (base ≤ o)%Z →
  sent_pairs table g base (dropCVREntries g' o db) = sent_pairs table g base db.
Proof.
  intros Hor. unfold sent_pairs, dropCVREntries. cbn [cvr_entry set_cvr_entry set_cvr_delete_entry].
  f_equal. apply list_filter_filter_l. intros e (Hg & Ho & _) [Hg' Ho'].
  destruct Hor as [Hne|Hle]; [congruence|lia].
Qed.

(** X4. Rewinding does not change a diff it is meant to protect:
    [dropCVREntries g' o] leaves the puts and the deletes of every other
    client group, and those of [g'] itself at any base order <= [o],
    exactly as they were. *)
Theorem diff_after_dropCVREntries table g base limit g' o db :
  g ≠ g' ∨ (base ≤ o)%Z →
  findUnsentItems table g base limit (dropCVREntries g' o db)
  = findUnsentItems table g base limit db
  ∧ findDeletions table g base limit (dropCVREntries g' o db)
    = findDeletions table g base limit db.
Proof.
  intros Hor. split.
  - unfold findUnsentItems. by rewrite sent_pairs_dropCVREntries.
  - unfold findDeletions, dropCVREntries.
    cbn [cvr_entry cvr_delete_entry rows set_cvr_entry set_cvr_delete_entry].
    do 2 f_equal. rewrite list_filter_filter. apply list_filter_iff. intros e.
    rewrite !Exists_exists. split.
    + intros [(Ht & Hr & Hg & Ho & Hd) _]. do 4 (split; [done|]).
      intros (d & Hin & Hd1 & Hd2 & Hd3 & Hd4). apply Hd. exists d. split; [|done].
      apply list_elem_of_filter. split; [|done]. intros [Hg' Ho'].
      destruct Hor as [Hne|Hle]; [congruence|lia].
    + intros (Ht & Hr & Hg & Ho & Hd). split.
      * do 4 (split; [done|]). intros (d & Hin & ?). apply Hd. exists d.
        apply list_elem_of_filter in Hin as [_ Hin]. done.
      * intros [Hg' Ho']. destruct Hor as [Hne|Hle]; [congruence|lia].
Qed.

Lemma diff_after_dropCVREntries_witness :
  let db := mkDb (mkRowStore [mkRow "a" 2 ""] [] []) ∅ ∅ []
                 [mkCVREntry "g1" 1 1 "a" 1; mkCVREntry "g1" 3 1 "a" 2] [] in
  findUnsentItems issue "g1" 1 10 (dropCVREntries "g1" 1 db) = [mkRow "a" 2 ""].
Proof.
  intros db.
  rewrite (proj1 (diff_after_dropCVREntries issue "g1" 1 10 "g1" 1 db
                    (or_intror (Z.le_refl 1)))).
  reflexivity.
Defined.

(** After [dropCVREntries g o] no row of [g] is dated after [o]. *)
Lemma dropCVREntries_none_after g o db : none_after g o (dropCVREntries g o db).
Proof.
  unfold none_after, dropCVREntries. cbn [cvr_entry cvr_delete_entry set_cvr_entry
    set_cvr_delete_entry].
  split.
  - intros e [Hnot _]%list_elem_of_filter Hg.
    destruct (decide (ce_order e ≤ o)%Z); [done|]. destruct Hnot. split; [done|lia].
  - intros d [Hnot _]%list_elem_of_filter Hg.
    destruct (decide (de_order d ≤ o)%Z); [done|]. destruct Hnot. split; [done|lia].
Qed.

Lemma elem_of_foldl_upsert e vs l :
  unique_keys l → NoDup (entry_key <$> vs) →
  e ∈ foldl (λ t v, upsert_entry v t) l vs ↔
  e ∈ vs ∨ (e ∈ l ∧ entry_key e ∉ entry_key <$> vs).
Proof.
  intros Hl Hvs.
  assert (∀ l' : list CVREntry, e ∈ l' ↔ e ∈ filter (λ x, entry_key x = entry_key e) l')
    as Hfil by (intros l'; rewrite list_elem_of_filter; tauto).
  rewrite Hfil. destruct (decide (entry_key e ∈ entry_key <$> vs)) as [Hin|Hnin].
  - apply list_elem_of_fmap in Hin as (v & Hk & Hv). rewrite Hk.
    rewrite foldl_upsert_filter_new by done. rewrite list_elem_of_singleton. split.
    + intros ->. by left.
    + intros [He|[_ Hno]].
      * by apply (NoDup_fmap_eq entry_key vs).
      * destruct Hno. apply list_elem_of_fmap. eauto.
  - rewrite foldl_upsert_filter_other by done. rewrite <- Hfil. split; [auto|].
    intros [He|[He _]]; [|done]. destruct Hnin. apply list_elem_of_fmap. eauto.
Qed.

Lemma table_rows_NoDup table db :
  NoDup (r_id <$> table_rows table (rows db)) → NoDup (table_rows table (rows db)).
Proof. apply NoDup_fmap_1. Qed.

Lemma findUnsentItems_ids_NoDup table g base limit db :
  NoDup (r_id <$> table_rows table (rows db)) →
  NoDup (entry_key <$>
         update_values table g base (findUnsentItems table g base limit db)).
Proof.
  intros Hnd. rewrite update_values_keys.
  rewrite (list_fmap_compose r_id (λ i, (g, TableOrdinal table, i))).
  apply NoDup_fmap_2; [by intros ?? [= ->]|].
  eapply sublist_NoDup; [exact Hnd|]. apply fmap_sublist.
  unfold findUnsentItems. etrans; [apply sublist_take|apply sublist_filter].
Qed.

(** X5. Paging through the puts.  In a table with one row per id, for a
    client group with one CVREntry per key and none dated after the base
    order: when the puts of one page have been recorded with
    [recordUpdates] at a new order >= base, the recording succeeds and the
    next [findUnsentItems] at the new order returns the rows that follow
    that page among the rows unsent at the base order.  With a page that is
    not truncated, nothing is left to send. *)
Theorem findUnsentItems_next_page table g base newOrder limit limit' db :
  NoDup (r_id <$> table_rows table (rows db)) →
  unique_keys (cvr_entry db) →
  none_after g base db →
  (base ≤ newOrder)%Z →
  let n := length (table_rows table (rows db)) in
  let page := findUnsentItems table g base limit db in
  let db' := fst (recordUpdates table g newOrder page db) in
  snd (recordUpdates table g newOrder page db) = Ok tt
  ∧ findUnsentItems table g newOrder limit' db'
    = take limit' (drop limit (findUnsentItems table g base n db))
  ∧ (n ≤ limit → findUnsentItems table g newOrder limit' db' = []).
Proof.
  intros Hids Huniq [Hafter _] Hle n page db'. subst n page db'.
  set (page := findUnsentItems table g base limit db).
  assert (NoDup (entry_key <$> update_values table g newOrder page)) as Hnd.
  { rewrite update_values_keys, <- (update_values_keys table g base). 
    by apply findUnsentItems_ids_NoDup. }
  rewrite recordUpdates_returns by done. cbn [fst snd]. split; [done|].
  assert (findUnsentItems table g newOrder limit'
            (set_cvr_entry (foldl (λ t v, upsert_entry v t) (cvr_entry db)
                              (update_values table g newOrder page)) db)
          = take limit' (drop limit
              (findUnsentItems table g base (length (table_rows table (rows db))) db)))
    as Hpage.
  { unfold findUnsentItems. rewrite take_length_filter. f_equal.
    cbn [rows set_cvr_entry].
    rewrite <- filter_not_in_take
      by (apply NoDup_filter; by apply table_rows_NoDup).
    rewrite list_filter_filter. apply filter_ext_elem. intros t Ht.
    assert (take limit (filter (λ t0, (r_id t0, r_rowversion t0) ∉ sent_pairs table g base db)
                          (table_rows table (rows db))) = page) as -> by done.
    rewrite !sent_pairs_elem. cbn [cvr_entry set_cvr_entry].
    split.
    - intros Hnew. split.
      + intros Hin. apply Hnew.
        exists (mkCVREntry g newOrder (TableOrdinal table) (r_id t) (r_rowversion t)).
        split; [|simpl; repeat split; try done; lia].
        apply elem_of_foldl_upsert; [done|done|]. left.
        unfold update_values. apply list_elem_of_fmap. eauto.
      + intros (e & Hin & Hg & Ho & Htb & Hi & Hv).
        destruct (decide (t ∈ page)) as [Hp|Hp].
        * unfold page, findUnsentItems in Hp. apply subseteq_take in Hp.
          apply list_elem_of_filter in Hp as [Hp _]. apply Hp, sent_pairs_elem. eauto 10.
        * apply Hnew. exists e. split; [|repeat split; try done; lia].
          apply elem_of_foldl_upsert; [done|done|]. right. split; [done|].
          rewrite update_values_keys. intros (u & Hk & Hu)%list_elem_of_fmap.
          unfold entry_key in Hk. injection Hk as _ _ Hid. rewrite Hi in Hid.
          assert (t = u) as ->; [|done].
          apply (NoDup_fmap_eq r_id (table_rows table (rows db))); try done.
          unfold page, findUnsentItems in Hu. apply subseteq_take in Hu.
          by apply list_elem_of_filter in Hu as [_ Hu].
    - intros [Hnp Hold] (e & Hin & Hg & Ho & Htb & Hi & Hv).
      apply elem_of_foldl_upsert in Hin as [Hin|[Hin _]]; [| |done|done].
      + unfold update_values in Hin. apply list_elem_of_fmap in Hin as (u & -> & Hu).
        simpl in Hi, Hv. apply Hnp.
        assert (u = t) as <-; [|done].
        apply (NoDup_fmap_eq r_id (table_rows table (rows db))); try done.
        unfold page, findUnsentItems in Hu. apply subseteq_take in Hu.
        by apply list_elem_of_filter in Hu as [_ Hu].
      + apply Hold. exists e. repeat split; try done. by apply Hafter. }
  split; [exact Hpage|]. intros Hlim. rewrite Hpage.
  rewrite drop_ge; [by destruct limit'|].
  unfold findUnsentItems. rewrite length_take.
  pose proof (length_filter
    (λ t, (r_id t, r_rowversion t) ∉ sent_pairs table g base db)
    (table_rows table (rows db))). lia.
Qed.

Lemma cvr_delete_entry_recordDeletes_app table g o ids db :
  cvr_delete_entry (recordDeletes table g o ids db)
  = cvr_delete_entry db ++ delete_values table g o ids.
Proof. unfold recordDeletes. destruct ids; [by rewrite app_nil_r|done]. Qed.

Lemma deleted_ids_NoDup table g base db :
  unique_keys (cvr_entry db) →
  NoDup (findDeletions table g base (length (cvr_entry db)) db).
Proof.
  unfold unique_keys, findDeletions. intros Huniq.
  rewrite take_ge by (rewrite length_fmap; apply length_filter).
  set (l := filter _ (cvr_entry db)).
  apply (NoDup_fmap_1 (λ i, (g, TableOrdinal table, i))).
  assert ((λ i, (g, TableOrdinal table, i)) <$> (ce_row_id <$> l) = entry_key <$> l) as ->.
  { rewrite <- list_fmap_compose. apply list_fmap_ext. intros k e He.
    apply list_elem_of_lookup_2 in He. unfold l in He.
    apply list_elem_of_filter in He as [(Ht & _ & Hg & _) _].
    unfold entry_key. simpl. by rewrite Ht, Hg. }
  eapply sublist_NoDup; [exact Huniq|]. apply fmap_sublist, sublist_filter.
Qed.

(** X6. Paging through the deletes.  For a client group with one CVREntry
    per key and no CVR row dated after the base order: when the ids of one
    page of [findDeletions] have been recorded with [recordDeletes] at a new
    order >= base, the next [findDeletions] at the new order returns the ids
    that follow that page among the deletions found at the base order.
    With a page that is not truncated, no deletion is reported again. *)
Theorem findDeletions_next_page table g base newOrder limit limit' db :
  unique_keys (cvr_entry db) →
  none_after g base db →
  (base ≤ newOrder)%Z →
  let n := length (cvr_entry db) in
  let page := findDeletions table g base limit db in
  let db' := recordDeletes table g newOrder page db in
  findDeletions table g newOrder limit' db'
  = take limit' (drop limit (findDeletions table g base n db))
  ∧ (n ≤ limit → findDeletions table g newOrder limit' db' = []).
Proof.
  intros Huniq [HafterE HafterD] Hle n page db'. subst n db'.
  pose proof (deleted_ids_NoDup table g base db Huniq) as Hnd.
  assert (findDeletions table g newOrder limit' (recordDeletes table g newOrder page db)
          = take limit' (drop limit (findDeletions table g base (length (cvr_entry db)) db)))
    as Hpage.
  { rewrite <- filter_not_in_take by done.
    assert (take limit (findDeletions table g base (length (cvr_entry db)) db) = page) as ->.
    { unfold page, findDeletions.
      rewrite (take_ge _ (length (cvr_entry db)))
        by (rewrite length_fmap; apply length_filter). done. }
    unfold findDeletions at 1 2.
    rewrite (take_ge _ (length (cvr_entry db)))
      by (rewrite length_fmap; apply length_filter).
    rewrite filter_fmap_comm, list_filter_filter. f_equal. f_equal.
    destruct (recordDeletes_frame table g newOrder page db) as [-> ->].
    rewrite cvr_delete_entry_recordDeletes_app.
    apply filter_ext_elem. intros e He. rewrite !Exists_exists. split.
    - intros (Ht & Hr & Hg & Ho & Hd). split; [|split; [done|split; [done|split; [done|split]]]].
      + intros Hp. apply Hd.
        exists (mkCVRDeleteEntry g newOrder (TableOrdinal table) (ce_row_id e)).
        split; [|simpl; repeat split; try done; lia].
        apply elem_of_app. right. unfold delete_values. apply list_elem_of_fmap. eauto.
      + by apply HafterE.
      + intros (d & Hin & Hd1 & Hd2 & Hd3 & Hd4). apply Hd. exists d.
        split; [apply elem_of_app; by left|]. repeat split; try done. lia.
    - intros (Hp & Ht & Hr & Hg & Ho & Hd). do 3 (split; [done|]). split; [lia|].
      intros (d & Hin & Hd1 & Hd2 & Hd3 & Hd4).
      apply elem_of_app in Hin as [Hin|Hin].
      + apply Hd. exists d. split; [done|]. repeat split; try done. by apply HafterD.
      + unfold delete_values in Hin. apply list_elem_of_fmap in Hin as (i & -> & Hi).
        simpl in Hd2. by subst i. }
  split; [exact Hpage|]. intros Hlim. rewrite Hpage.
  rewrite drop_ge; [by destruct limit'|].
  unfold findDeletions. rewrite length_take, length_fmap.
  pose proof (length_filter
    (λ e, ce_tbl e = TableOrdinal table
        ∧ ¬ Exists (λ t, r_id t = ce_row_id e) (table_rows table (rows db))
        ∧ ce_client_group_id e = g
        ∧ (ce_order e ≤ base)%Z
        ∧ ¬ Exists (λ d, de_tbl d = TableOrdinal table
                         ∧ de_row_id d = ce_row_id e
                         ∧ de_client_group_id d = g
                         ∧ (de_order d ≤ base)%Z) (cvr_delete_entry db))
    (cvr_entry db)). lia.
Qed.

(** X7. One diff never both puts and deletes a row: an id returned by
    [findDeletions] is not the id of any row returned by [findUnsentItems]
    for the same table, whatever the client groups, orders and limits. *)
Theorem puts_deletes_disjoint table g base limit g' base' limit' db i r :
  i ∈ findDeletions table g base limit db →
  r ∈ findUnsentItems table g' base' limit' db →
  r_id r ≠ i.
Proof.
  intros Hi Hr Heq.
  assert (i ∈ findDeletions table g base (length (cvr_entry db)) db) as Hall.
  { unfold findDeletions in *. rewrite take_ge
      by (rewrite length_fmap; apply length_filter).
    by apply (subseteq_take limit). }
  apply findDeletions_elem in Hall as (_ & Hno & _). apply Hno. exists r. split; [|done].
  unfold findUnsentItems in Hr. apply subseteq_take in Hr.
  by apply list_elem_of_filter in Hr as [_ ?].
Qed.

(** X8. With one CVREntry per key, [findDeletions] reports an id at most
    once. *)
Theorem findDeletions_NoDup table g base limit db :
  unique_keys (cvr_entry db) → NoDup (findDeletions table g base limit db).
Proof.
  intros Huniq.
  assert (findDeletions table g base limit db
          = take limit (findDeletions table g base (length (cvr_entry db)) db)) as ->.
  { unfold findDeletions. rewrite (take_ge _ (length (cvr_entry db)))
      by (rewrite length_fmap; apply length_filter). done. }
  eapply sublist_NoDup; [by apply deleted_ids_NoDup|apply sublist_take].
Qed.

Lemma TableOrdinal_inj table table' : TableOrdinal table = TableOrdinal table' → table = table'.
Proof. by destruct table, table'. Qed.

Lemma upsert_entry_filter_frame (P : CVREntry → Prop) `{!∀ e, Decision (P e)} v l :
  (∀ e, P e → (ce_client_group_id e, ce_tbl e) ≠ (ce_client_group_id v, ce_tbl v)) →
  filter P (upsert_entry v l) = filter P l.
Proof.
  intros HP. induction l as [|row l IH]; cbn [upsert_entry].
  - rewrite filter_cons_False; [done|]. intros Hv. by apply (HP v).
  - destruct (decide (entry_key row = entry_key v)) as [Hk|Hk].
    + unfold entry_key in Hk. injection Hk as Hg Ht Hi.
      rewrite !filter_cons_False; [done| |].
      * intros Hrow. apply (HP _ Hrow). by rewrite Hg, Ht.
      * intros Hrow. apply (HP _ Hrow). simpl. by rewrite Hg, Ht.
    + by rewrite !filter_cons, IH.
Qed.

Lemma foldl_upsert_filter_frame (P : CVREntry → Prop) `{!∀ e, Decision (P e)} vs l :
  (∀ v e, v ∈ vs → P e →
     (ce_client_group_id e, ce_tbl e) ≠ (ce_client_group_id v, ce_tbl v)) →
  filter P (foldl (λ t v, upsert_entry v t) l vs) = filter P l.
Proof.
  revert l. induction vs as [|v vs IH]; intros l HP; cbn [foldl]; [done|].
  rewrite IH by (intros w e Hw; apply HP; by right).
  apply upsert_entry_filter_frame. intros e. apply HP. left.
Qed.

Lemma recordUpdates_frame table g order updates db :
  rows (fst (recordUpdates table g order updates db)) = rows db
  ∧ cvr_delete_entry (fst (recordUpdates table g order updates db)) = cvr_delete_entry db
  ∧ ∀ (P : CVREntry → Prop) `{!∀ e, Decision (P e)},
      (∀ e, P e → (ce_client_group_id e, ce_tbl e) ≠ (g, TableOrdinal table)) →
      filter P (cvr_entry (fst (recordUpdates table g order updates db)))
      = filter P (cvr_entry db).
Proof.
  destruct (decide (NoDup (entry_key <$> update_values table g order updates))) as [Hnd|Hdup].
  - rewrite recordUpdates_returns by done. cbn [fst]. split; [done|]. split; [done|].
    intros P ? HP. cbn [cvr_entry set_cvr_entry].
    apply foldl_upsert_filter_frame. intros v e Hv He.
    unfold update_values in Hv. apply list_elem_of_fmap in Hv as (u & -> & _). simpl.
    by apply HP.
  - destruct (recordUpdates_throws table g order updates db Hdup) as [e ->]. done.
Qed.

(** X9. Recording for one client group and table does not disturb any other:
    after [recordUpdates] or [recordDeletes] for ([g], [table]), whether
    they return or throw, the puts and deletes computed for another client
    group, or for another table of the same group, are what they were. *)
Theorem record_leaves_other_diffs table g order updates ids table' g' base limit db :
  g' ≠ g ∨ table' ≠ table →
  let db1 := fst (recordUpdates table g order updates db) in
  let db2 := recordDeletes table g order ids db in
  findUnsentItems table' g' base limit db1 = findUnsentItems table' g' base limit db
  ∧ findDeletions table' g' base limit db1 = findDeletions table' g' base limit db
  ∧ findUnsentItems table' g' base limit db2 = findUnsentItems table' g' base limit db
  ∧ findDeletions table' g' base limit db2 = findDeletions table' g' base limit db.
Proof.
  intros Hother db1 db2. subst db1 db2.
  assert (∀ g0 t0, g0 = g' → t0 = TableOrdinal table' → (g0, t0) ≠ (g, TableOrdinal table))
    as Hne.
  { intros g0 t0 -> -> [= Hg Ht]. apply TableOrdinal_inj in Ht.
    destruct Hother; congruence. }
  destruct (recordUpdates_frame table g order updates db) as (Hrows & Hdel & Hfil).
  destruct (recordDeletes_frame table g order ids db) as [Hrows2 Hent2].
  split; [|split; [|split]].
  - assert (sent_pairs table' g' base (fst (recordUpdates table g order updates db))
            = sent_pairs table' g' base db) as Hsent.
    { unfold sent_pairs. f_equal. apply Hfil. intros e (Hg & _ & Ht). by apply Hne. }
    unfold findUnsentItems. by rewrite Hrows, Hsent.
  - unfold findDeletions. rewrite Hrows, Hdel. do 2 f_equal.
    apply Hfil. intros e (Ht & _ & Hg & _). by apply Hne.
  - unfold findUnsentItems, sent_pairs. by rewrite Hrows2, Hent2.
  - unfold findDeletions. rewrite Hrows2, Hent2, cvr_delete_entry_recordDeletes_app.
    do 2 f_equal. apply list_filter_iff. intros e. rewrite !Exists_exists. split.
    + intros (Ht & Hr & Hg & Ho & Hd). do 4 (split; [done|]).
      intros (d & Hin & ?). apply Hd. exists d. split; [|done]. apply elem_of_app. by left.
    + intros (Ht & Hr & Hg & Ho & Hd). do 4 (split; [done|]).
      intros (d & Hin & Hd1 & Hd2 & Hd3 & Hd4).
      apply elem_of_app in Hin as [Hin|Hin]; [apply Hd; eauto 10|].
      unfold delete_values in Hin. apply list_elem_of_fmap in Hin as (i & -> & _).
      simpl in *. by apply (Hne g (TableOrdinal table)).
Qed.

(** Three issues, none sent yet, pages of two. *)
Lemma findUnsentItems_next_page_witness :
  let db := mkDb (mkRowStore [mkRow "a" 1 ""; mkRow "b" 4 ""; mkRow "c" 2 ""] [] [])
                 ∅ ∅ [] [] [] in
  let db' := fst (recordUpdates issue "g1" 1 (findUnsentItems issue "g1" 0 2 db) db) in
  findUnsentItems issue "g1" 1 2 db' = [mkRow "c" 2 ""].
Proof.
  intros db db'.
  assert (NoDup (r_id <$> table_rows issue (rows db))) as Hids.
  { apply (bool_decide_unpack _). vm_compute. exact I. }
  assert (unique_keys (cvr_entry db)) as Huniq by apply NoDup_nil_2.
  assert (none_after "g1" 0 db) as Hafter
    by (split; intros x Hx; by apply elem_of_nil in Hx).
  destruct (findUnsentItems_next_page issue "g1" 0 1 2 2 db Hids Huniq Hafter)
    as (_ & Hpage & _); [lia|].
  subst db'. rewrite Hpage. reflexivity.
Defined.

(** Two issues sent at order 1 and gone from the table, pages of one. *)
Lemma findDeletions_next_page_witness :
  let db := mkDb (mkRowStore [] [] []) ∅ ∅ []
                 [mkCVREntry "g1" 1 1 "a" 1; mkCVREntry "g1" 1 1 "b" 1] [] in
  let db' := recordDeletes issue "g1" 2 (findDeletions issue "g1" 1 1 db) db in
  findDeletions issue "g1" 2 1 db' = ["b"].
Proof.
  intros db db'.
  assert (unique_keys (cvr_entry db)) as Huniq.
  { apply (bool_decide_unpack _). vm_compute. exact I. }
  assert (none_after "g1" 1 db) as Hafter.
  { split; [|intros x Hx; by apply elem_of_nil in Hx].
    intros e He _. repeat (apply elem_of_cons in He as [->|He]; [simpl; lia|]).
    by apply elem_of_nil in He. }
  destruct (findDeletions_next_page issue "g1" 1 2 1 1 db Huniq Hafter) as [Hpage _]; [lia|].
  subst db'. rewrite Hpage. reflexivity.
Defined.

(** A table with issue "a"; "b" was sent and is gone. *)
Lemma puts_deletes_disjoint_witness :
  let db := mkDb (mkRowStore [mkRow "a" 1 ""] [] []) ∅ ∅ []
                 [mkCVREntry "g1" 1 1 "b" 1] [] in
  r_id (mkRow "a" 1 "") ≠ "b".
Proof.
  intros db.
  apply (puts_deletes_disjoint issue "g1" 1 5 "g1" 1 5 db "b" (mkRow "a" 1 "")).
  - apply (bool_decide_unpack _). vm_compute. exact I.
  - apply (bool_decide_unpack _). vm_compute. exact I.
Defined.

Lemma findDeletions_NoDup_witness :
  NoDup (findDeletions issue "g1" 1 5
           (mkDb (mkRowStore [] [] []) ∅ ∅ []
                 [mkCVREntry "g1" 1 1 "a" 1; mkCVREntry "g1" 1 1 "b" 1] [])).
Proof.
  apply findDeletions_NoDup. apply (bool_decide_unpack _). vm_compute. exact I.
Defined.

(** Recording for "g1" leaves the diff of "g2" alone. *)
Lemma record_leaves_other_diffs_witness :
  let db := mkDb (mkRowStore [mkRow "a" 1 ""] [] []) ∅ ∅ []
                 [mkCVREntry "g2" 1 1 "a" 1] [] in
  findUnsentItems issue "g2" 1 5 (fst (recordUpdates issue "g1" 1 [mkRow "a" 1 ""] db))
  = findUnsentItems issue "g2" 1 5 db.
Proof.
  intros db.
  apply (record_leaves_other_diffs issue "g1" 1 [mkRow "a" 1 ""] [] issue "g2" 1 5 db).
  left. discriminate.
Defined.

End DiffComposition.

(** ** The push loop over whole batches *)

Section PushBatches.
Context `{D : Data}.

Lemma clientVersion_mutate m g (db : Db) :
  clientVersion g (fst (mutate m db)) = clientVersion g db.
Proof. unfold clientVersion. by rewrite (proj1 (proj2 (mutate_frame m db))). Qed.

Lemma lastMutationID_advance_other cg m c db :
  c ≠ m_clientID m → lastMutationID c (advance cg m db) = lastMutationID c db.
Proof. intros Hne. unfold lastMutationID, advance. simpl. by rewrite lookup_insert_ne. Qed.

Lemma clientVersion_advance_other cg m g db :
  g ≠ cg → clientVersion g (advance cg m db) = clientVersion g db.
Proof. intros Hne. unfold clientVersion, advance. simpl. by rewrite lookup_insert_ne. Qed.

Lemma lastMutationID_set_rows c rs db :
  lastMutationID c (set_rows rs db) = lastMutationID c db.
Proof. done. Qed.

Lemma clientVersion_set_rows g rs db :
  clientVersion g (set_rows rs db) = clientVersion g db.
Proof. done. Qed.

Lemma push_mutation_monotone cg m db c g :
  (lastMutationID c db ≤ lastMutationID c (fst (push_mutation cg m db)))%Z
  ∧ (clientVersion g db ≤ clientVersion g (fst (push_mutation cg m db)))%Z.
Proof.
  destruct (push_mutation_cases cg m db)
    as [[_ ->]|[[_ ->]|[[_ [rs ->]]|(_ & _ & _ & ->)]]]; cbn [fst]; [lia|lia| |lia].
  split.
  - destruct (decide (c = m_clientID m)) as [->|Hne].
    + rewrite lastMutationID_advance, lastMutationID_set_rows. lia.
    + rewrite lastMutationID_advance_other, lastMutationID_set_rows by done. lia.
  - destruct (decide (g = cg)) as [->|Hne].
    + rewrite clientVersion_advance, clientVersion_set_rows. lia.
    + rewrite clientVersion_advance_other, clientVersion_set_rows by done. lia.
Qed.

Lemma push_loop_cons cg m ms db :
  push_loop cg (m :: ms) db =
  match push_mutation cg m db with
  | (db1, Ok _) => push_loop cg ms db1
  | (db1, Throw e) => (db1, Throw e)
  end.
Proof. done. Qed.

Lemma push_loop_monotone cg ms db c g :
  (lastMutationID c db ≤ lastMutationID c (fst (push_loop cg ms db)))%Z
  ∧ (clientVersion g db ≤ clientVersion g (fst (push_loop cg ms db)))%Z.
Proof.
  revert db. induction ms as [|m ms IH]; intros db; [simpl; lia|].
  rewrite push_loop_cons.
  pose proof (push_mutation_monotone cg m db c g) as [Hl Hv].
  destruct (push_mutation cg m db) as [db1 [[]|e]]; cbn [fst] in *; [|lia].
  destruct (IH db1). lia.
Qed.

(** X10. The counters only grow: whatever the request and however it ends,
    no client's lastMutationID and no client group's clientVersion is lower
    after [push] than before. *)
Theorem push_counters_monotone requestBody db c g :
  (lastMutationID c db ≤ lastMutationID c (fst (push requestBody db)))%Z
  ∧ (clientVersion g db ≤ clientVersion g (fst (push requestBody db)))%Z.
Proof.
  unfold push. destruct (pushRequestSchema_parse requestBody) as [p|e]; [|simpl; lia].
  apply push_loop_monotone.
Qed.

Lemma push_mutation_frame cg m db :
  let db' := fst (push_mutation cg m db) in
  cvr db' = cvr db ∧ cvr_entry db' = cvr_entry db
  ∧ cvr_delete_entry db' = cvr_delete_entry db
  ∧ (∀ g, cg_cvrVersion (default (mkClientGroup g 0 0) (client_group db' !! g))
          = cg_cvrVersion (default (mkClientGroup g 0 0) (client_group db !! g)))
  ∧ (∀ g, g ≠ cg → client_group db' !! g = client_group db !! g)
  ∧ (∀ c, c ≠ m_clientID m → client db' !! c = client db !! c).
Proof.
  destruct (push_mutation_cases cg m db)
    as [[_ ->]|[[_ ->]|[[_ [rs ->]]|(_ & _ & _ & ->)]]]; cbn [fst]; [done|done| |done].
  unfold advance. cbn [cvr cvr_entry cvr_delete_entry client_group client set_client
    set_client_group set_rows].
  split; [done|]. split; [done|]. split; [done|]. split; [|split].
  - intros g. destruct (decide (g = cg)) as [->|Hne].
    + by rewrite lookup_insert_eq.
    + by rewrite lookup_insert_ne.
  - intros g Hne. by rewrite lookup_insert_ne.
  - intros c Hne. by rewrite lookup_insert_ne.
Qed.

(** X11. What the push loop never writes: the three CVR tables, the
    cvrVersion of any client group, the row of any client group other than
    the pushing one, and the row of any client that has no mutation in the
    batch. *)
Theorem push_loop_frame cg ms db :
  let db' := fst (push_loop cg ms db) in
  cvr db' = cvr db ∧ cvr_entry db' = cvr_entry db
  ∧ cvr_delete_entry db' = cvr_delete_entry db
  ∧ (∀ g, cg_cvrVersion (default (mkClientGroup g 0 0) (client_group db' !! g))
          = cg_cvrVersion (default (mkClientGroup g 0 0) (client_group db !! g)))
  ∧ (∀ g, g ≠ cg → client_group db' !! g = client_group db !! g)
  ∧ (∀ c, (∀ m, m ∈ ms → m_clientID m ≠ c) → client db' !! c = client db !! c).
Proof.
  revert db. induction ms as [|m ms IH]; intros db; [done|].
  cbn zeta. rewrite push_loop_cons.
  pose proof (push_mutation_frame cg m db) as (H1 & H2 & H3 & H4 & H5 & H6).
  destruct (push_mutation cg m db) as [db1 [[]|e]]; cbn [fst] in *.
  - destruct (IH db1) as (I1 & I2 & I3 & I4 & I5 & I6).
    rewrite I1, I2, I3. split; [done|]. split; [done|]. split; [done|].
    split; [|split].
    + intros g. by rewrite I4.
    + intros g Hne. by rewrite I5, H5.
    + intros c Hc. rewrite I6 by (intros m' Hm'; apply Hc; by right).
      apply H6. intros Heq. apply (Hc m); [left|done].
  - split; [done|]. split; [done|]. split; [done|]. split; [done|]. split; [done|].
    intros c Hc. apply H6. intros Heq. apply (Hc m); [left|done].
Qed.



(** X13. A batch in sequence whose effects are all awaited is consumed
    whole: when the mutations of a batch all come from one client, carry the
    ids lastMutationID + 1, lastMutationID + 2, ... in this order, and none
    of them is an [updateIssues] (the one effect that can return with its
    transaction aborted), the loop ends without error and the client's
    lastMutationID and the group's clientVersion have both grown by the
    number of mutations, whether their effects succeeded or threw. *)
Theorem push_loop_in_sequence cg c ms db :
  (∀ (k : nat) m, ms !! k = Some m →
     m_clientID m = c ∧ m_id m = (lastMutationID c db + 1 + Z.of_nat k)%Z) →
  Forall (λ m, m_name m ≠ "updateIssues") ms →
  snd (push_loop cg ms db) = Ok tt
  ∧ lastMutationID c (fst (push_loop cg ms db))
    = (lastMutationID c db + Z.of_nat (length ms))%Z
  ∧ clientVersion cg (fst (push_loop cg ms db))
    = (clientVersion cg db + Z.of_nat (length ms))%Z.
Proof.
  revert db. induction ms as [|m ms IH]; intros db Hseq Hnames.
  - simpl. repeat split; lia.
  - destruct (Hseq 0%nat m eq_refl) as [Hc Hid].
    apply Forall_cons in Hnames as [Hname Hnames].
    rewrite push_loop_cons.
    destruct (push_mutation_cases cg m db)
      as [[Hlt _]|[[Hgt _]|[[_ [rs Hpm]]|(_ & Hupd & _)]]];
      [rewrite Hc in Hlt; lia|rewrite Hc in Hgt; lia| |done].
    rewrite Hpm. set (db2 := advance cg m (set_rows rs db)).
    assert (lastMutationID c db2 = (lastMutationID c db + 1)%Z) as Hl.
    { unfold db2. rewrite <- Hc. by rewrite lastMutationID_advance. }
    assert (clientVersion cg db2 = (clientVersion cg db + 1)%Z) as Hv.
    { unfold db2. by rewrite clientVersion_advance. }
    destruct (IH db2) as (Hok & Hl' & Hv'); [|done|].
    { intros k m' Hk. destruct (Hseq (S k) m' Hk) as [Hc' Hid']. split; [done|].
      rewrite Hl, Hid'. lia. }
    rewrite Hok, Hl', Hv', Hl, Hv. cbn [length]. repeat split; lia.
Qed.

(** X14. Arguments that fail their schema write nothing: in each of the four
    cases of [mutate] the arguments are parsed before the first write, so
    [mutate] throws the parse error with the database as it was; the loop
    body then consumes the mutation's slot and leaves the Row Store
    untouched. *)
Theorem mutate_invalid_args m db e :
  (m_name m = "putIssue" ∧ issueWithDescriptionSchema_parse (m_args m) = Throw e)
  ∨ (m_name m = "updateIssues" ∧ issueUpdateWithIDSchema_array_parse (m_args m) = Throw e)
  ∨ ((m_name m = "putIssueComment" ∨ m_name m = "deleteIssueComment")
     ∧ commentSchema_parse (m_args m) = Throw e) →
  mutate m db = (db, Throw e)
  ∧ (∀ cg, m_id m = (lastMutationID (m_clientID m) db + 1)%Z →
       push_mutation cg m db = (advance cg m db, Ok tt)
       ∧ rows (fst (push_mutation cg m db)) = rows db).
Proof.
  intros Hbad.
  assert (∀ c : Conn, mutate m c = (c, Throw e)) as Hmut.
  { intros c. unfold mutate, mbind, Exec_bind, parse.
    destruct Hbad as [[-> ->]|[[-> ->]|[[->| ->] ->]]]; done. }
  split; [done|]. intros cg Hid.
  rewrite push_mutation_next by done. by rewrite Hmut.
Qed.

Lemma Exec_bind_run {A B} (t : Exec A) (k : A → Exec B) c :
  (t ≫= k) c = match t c with
               | (c', Ok a) => k a c'
               | (c', Throw e) => (c', Throw e)
               end.
Proof. done. Qed.

Lemma executor_refused {A} (q : Tx A) c :
  conn_aborted c = true → executor q c = (c, Throw aborted_message).
Proof. intros Hab. unfold executor. by rewrite Hab. Qed.

(** Promises started on an aborted transaction leave it as it is. *)
Lemma start_all_refused {U} (task : U → Tx unit) (rest : U → Exec unit) us c :
  conn_aborted c = true →
  start_all ((λ u, executor (task u) ;; rest u) <$> us) c = (c, Ok tt).
Proof.
  intros Hab. induction us as [|u us IH]; [done|].
  cbn [fmap list_fmap start_all]. rewrite Exec_bind_run. unfold detached.
  rewrite Exec_bind_run, executor_refused by done. apply IH.
Qed.

(** The first update of an [updateIssues] fails in the database: [mutate]
    returns with the transaction aborted. *)
Lemma mutate_updateIssues_aborted m (db : Db) u us rs e :
  m_name m = "updateIssues" →
  issueUpdateWithIDSchema_array_parse (m_args m) = Ok (u :: us) →
  updateIssue (upd_id u) (upd_issueChanges u) (rows db) = (rs, Throw e) →
  mutate m db = (mkConn db db true, Ok tt).
Proof.
  intros Hname Hparse Hfail. unfold mutate. rewrite Hname.
  rewrite decide_False by discriminate. rewrite decide_True by done.
  rewrite Exec_bind_run. unfold parse. rewrite Hparse.
  cbn [fmap list_fmap start_all]. rewrite Exec_bind_run. unfold detached.
  assert (executor (on_rows (updateIssue (upd_id u) (upd_issueChanges u))) (begin db)
          = (mkConn db db true, Throw e)) as Hhead.
  { unfold executor, on_rows. simpl. by rewrite Hfail. }
  rewrite Exec_bind_run, Hhead. cbn [fst].
  apply (start_all_refused
           (λ update, on_rows (updateIssue (upd_id update) (upd_issueChanges update)))
           (λ update, match upd_descriptionChange update with
                      | None => mret tt
                      | Some change =>
                          executor (on_rows (updateDescription (upd_id update) change))
                      end)).
  done.
Qed.

(** X15. [updateIssues] never reports a failed update as the mutation's
    error: once its arguments have parsed, [mutate] returns normally
    whatever the updates do, so no error pass follows.  When every statement
    of the updates has succeeded, the first pass commits them with both
    version rows.  When the first update fails in the database, the
    transaction is aborted behind the returned effect: the version writes
    are refused outside the try/catch, the first pass throws, nothing is
    kept, the slot is not consumed, and the loop stops there. *)
Theorem updateIssues_failures_unreported cg m (db : Db) updates :
  m_name m = "updateIssues" →
  issueUpdateWithIDSchema_array_parse (m_args m) = Ok updates →
  m_id m = (lastMutationID (m_clientID m) db + 1)%Z →
  snd (mutate m db) = Ok tt
  ∧ (conn_aborted (fst (mutate m db)) = false →
       processMutation cg m None db = (advance cg m (fst (mutate m db)), Ok None))
  ∧ (∀ u us rs e,
       updates = u :: us →
       updateIssue (upd_id u) (upd_issueChanges u) (rows db) = (rs, Throw e) →
       processMutation cg m None db = (db, Throw aborted_message)
       ∧ ∀ rest, push_loop cg (m :: rest) db = (db, Throw aborted_message)).
Proof.
  intros Hname Hparse Hid.
  pose proof (mutate_updateIssues_returns m db updates Hname Hparse) as Hret.
  split; [done|]. split.
  - intros Halive. rewrite processMutation_effect by done.
    destruct (mutate m db) as [c1 [[]|e]]; [|discriminate].
    simpl in *. by rewrite Halive.
  - intros u us rs e -> Hfail.
    pose proof (mutate_updateIssues_aborted m db u us rs e Hname Hparse Hfail) as Hmut.
    split.
    + rewrite processMutation_effect by done. by rewrite Hmut.
    + intros rest. rewrite push_loop_cons, push_mutation_next by done. by rewrite Hmut.
Qed.

(** X16. The rows a consumed slot writes: after the loop body has run a
    mutation with id lastMutationID + 1 (for an [updateIssues]: none of
    whose updates has aborted the transaction), the ClientGroup row of the
    pushing group keeps its cvrVersion and has clientVersion + 1, and the
    Client row carries the pushing group's id, the mutation's id and that
    same new clientVersion, whatever group the client row named before. *)
Theorem consumed_slot_rows cg m (db : Db) :
  m_id m = (lastMutationID (m_clientID m) db + 1)%Z →
  (m_name m = "updateIssues" → conn_aborted (fst (mutate m db)) = false) →
  let db' := fst (push_mutation cg m db) in
  client_group db' !! cg
  = Some (mkClientGroup cg
            (cg_cvrVersion (default (mkClientGroup cg 0 0) (client_group db !! cg)))
            (clientVersion cg db + 1))
  ∧ client db' !! m_clientID m
    = Some (mkClient (m_clientID m) cg (m_id m) (clientVersion cg db + 1)).
Proof.
  intros Hid Halive db'. subst db'.
  destruct (push_mutation_cases cg m db)
    as [[Hlt _]|[[Hgt _]|[[_ [rs ->]]|(_ & Hupd & Hab & _)]]]; [lia|lia| |].
  - cbn [fst]. unfold advance, clientVersion.
    cbn [client_group client set_client set_client_group set_rows].
    rewrite !lookup_insert_eq. split; [done|].
    unfold lastMutationID in Hid. by rewrite Hid.
  - rewrite Halive in Hab by done. discriminate.
Qed.

End PushBatches.

(** ** Batches on concrete requests *)

Section BatchRuns.
Import Demo.

(** Client "c2" has no mutation in the batch of "c1". *)
Lemma push_loop_frame_witness :
  let m := mutation 1 "c1" "putIssueComment" (ArgsComment comment1) in
  let db := mkDb (mkRowStore [] [] []) ∅ {["c2" := mkClient "c2" "g1" 4 9]} [] [] [] in
  client (fst (@push_loop shared data "g1" [m] db)) !! "c2"
  = Some (mkClient "c2" "g1" 4 9).
Proof.
  intros m db.
  destruct (@push_loop_frame shared data "g1" [m] db) as (_ & _ & _ & _ & _ & Hc).
  rewrite Hc; [reflexivity|].
  intros m' ->%list_elem_of_singleton. discriminate.
Defined.

(** Mutations 1, 2 and 3 of a new client; the second has unusable args. *)
Lemma push_loop_in_sequence_witness :
  let ms := [mutation 1 "c1" "putIssueComment" (ArgsComment comment1);
             mutation 2 "c1" "putIssue" (ArgsOther "junk");
             mutation 3 "c1" "deleteIssueComment" (ArgsComment comment1)] in
  snd (@push_loop shared data "g1" ms empty_db) = Ok tt
  ∧ @lastMutationID "c1" (fst (@push_loop shared data "g1" ms empty_db)) = 3%Z
  ∧ @clientVersion "g1" (fst (@push_loop shared data "g1" ms empty_db)) = 3%Z.
Proof.
  intros ms.
  apply (@push_loop_in_sequence shared data "g1" "c1" ms empty_db).
  - intros k m Hk.
    destruct k as [|[|[|k]]]; simpl in Hk; [| | |done]; injection Hk as <-;
      split; reflexivity.
  - repeat (apply Forall_cons; split; [discriminate|]). apply Forall_nil_2.
Defined.

Lemma mutate_invalid_args_witness :
  let m := mutation 1 "c1" "putIssue" (ArgsOther "junk") in
  @mutate shared data m empty_db
  = (empty_db, Throw "ZodError: expected issue with description")
  ∧ rows (fst (@push_mutation shared data "g1" m empty_db)) = rows empty_db.
Proof.
  intros m.
  destruct (@mutate_invalid_args shared data m empty_db
              "ZodError: expected issue with description") as [Hmut Hpush].
  { left. split; reflexivity. }
  split; [exact Hmut|]. apply (Hpush "g1"). reflexivity.
Defined.

(** An update with an empty title, which the issue table refuses, followed
    by a comment: the push is rejected, nothing is stored, no slot is
    consumed and the comment is never processed. *)
Lemma updateIssues_failures_unreported_witness :
  let m := mutation 1 "c1" "updateIssues" (ArgsUpdates [mkUpdate "i1" "" None]) in
  let next := mutation 2 "c1" "putIssueComment" (ArgsComment comment1) in
  snd (@mutate shared data m empty_db) = Ok tt
  ∧ @processMutation shared data "g1" m None empty_db
    = (empty_db, Throw aborted_message)
  ∧ @push_loop shared data "g1" [m; next] empty_db = (empty_db, Throw aborted_message)
  ∧ @lastMutationID "c1" (fst (@push_loop shared data "g1" [m; next] empty_db)) = 0%Z.
Proof.
  intros m next.
  destruct (@updateIssues_failures_unreported shared data "g1" m empty_db
              [mkUpdate "i1" "" None]) as (Hret & _ & Hfail);
    [reflexivity|reflexivity|reflexivity|].
  destruct (Hfail (mkUpdate "i1" "" None) [] (mkRowStore [] [] [])
              "Error: title must not be empty") as [Hpass Hloop];
    [reflexivity|reflexivity|].
  split; [exact Hret|]. split; [exact Hpass|]. rewrite (Hloop [next]).
  split; reflexivity.
Defined.

(** Without the proviso of X16: the loop body has run an [updateIssues]
    with the expected id whose update the issue table refuses, and neither
    version row is written. *)
Lemma aborted_slot_not_consumed :
  let m := mutation 1 "c1" "updateIssues" (ArgsUpdates [mkUpdate "i1" "" None]) in
  m_id m = (@lastMutationID "c1" empty_db + 1)%Z
  ∧ client_group (fst (@push_mutation shared data "g1" m empty_db)) !! "g1" = None
  ∧ client (fst (@push_mutation shared data "g1" m empty_db)) !! "c1" = None.
Proof. intros m. vm_compute. repeat split; reflexivity. Qed.

(** Client "c1", registered under "g0", pushes under "g1". *)
Lemma consumed_slot_rows_witness :
  let m := mutation 5 "c1" "putIssueComment" (ArgsComment comment1) in
  let db := mkDb (mkRowStore [] [] []) {["g1" := mkClientGroup "g1" 2 7]}
                 {["c1" := mkClient "c1" "g0" 4 3]} [] [] [] in
  client_group (fst (@push_mutation shared data "g1" m db)) !! "g1"
  = Some (mkClientGroup "g1" 2 8)
  ∧ client (fst (@push_mutation shared data "g1" m db)) !! "c1"
    = Some (mkClient "c1" "g1" 5 8).
Proof.
  intros m db.
  apply (@consumed_slot_rows shared data "g1" m db); [reflexivity|discriminate].
Defined.

End BatchRuns.

(** ** The filter menu *)

Section TopFilterFacts.
Import TopFilter.
Context {A : Type} `{EqDecision A}.

Lemma newSet_foldl (l acc : list A) :
  NoDup acc →
  NoDup (foldl (λ set x, if decide (x ∈ set) then set else set ++ [x]) acc l)
  ∧ ∀ y, y ∈ foldl (λ set x, if decide (x ∈ set) then set else set ++ [x]) acc l
         ↔ y ∈ acc ∨ y ∈ l.
Proof.
  revert acc. induction l as [|x l IH]; intros acc Hacc; cbn [foldl].
  - split; [done|]. intros y. rewrite elem_of_nil. tauto.
  - destruct (decide (x ∈ acc)) as [Hin|Hnin].
    + destruct (IH acc Hacc) as [Hnd Hel]. split; [done|].
      intros y. rewrite Hel, elem_of_cons. split; [tauto|].
      intros [?|[->|?]]; auto.
    + destruct (IH (acc ++ [x])) as [Hnd Hel].
      { apply NoDup_app. split; [done|]. split; [|apply NoDup_singleton].
        intros y Hy ->%list_elem_of_singleton. done. }
      split; [done|]. intros y.
      rewrite Hel, elem_of_app, list_elem_of_singleton, elem_of_cons. tauto.
Qed.

Lemma newSet_spec (l : list A) : NoDup (newSet l) ∧ ∀ y, y ∈ newSet l ↔ y ∈ l.
Proof.
  destruct (newSet_foldl l [] (NoDup_nil_2)) as [Hnd Hel]. split; [done|].
  intros y. unfold newSet. rewrite Hel, elem_of_nil. tauto.
Qed.

Lemma onSelect_elem (filters : option (list A)) x y :
  y ∈ default [] (onSelect filters x) ↔
  (y ≠ x ∧ y ∈ default [] filters) ∨ (y = x ∧ x ∉ default [] filters).
Proof.
  unfold onSelect. destruct (newSet_spec (default [] filters)) as [Hnd Hel].
  set (s := newSet (default [] filters)) in *.
  assert (∀ s' : list A, y ∈ default [] (match s' with [] => None | _ => Some s' end)
                         ↔ y ∈ s') as Hs' by (by intros []).
  rewrite Hs'. destruct (decide (x ∈ s)) as [Hin|Hnin].
  - rewrite list_elem_of_filter, Hel. apply Hel in Hin. tauto.
  - rewrite elem_of_app, list_elem_of_singleton, Hel. rewrite Hel in Hnin.
    split; [|tauto]. intros [Hy| ->]; [|tauto]. left. split; [|done].
    intros ->. done.
Qed.

(** X17. A click in the filter menu toggles one value: the new filter state
    holds the clicked value exactly when the old one did not, holds every
    other value exactly when the old one did, lists no value twice, and is
    [null] rather than an empty array. *)
Theorem onSelect_toggles (filters : option (list A)) x :
  onSelect filters x ≠ Some []
  ∧ NoDup (default [] (onSelect filters x))
  ∧ (x ∈ default [] (onSelect filters x) ↔ x ∉ default [] filters)
  ∧ (∀ y, y ≠ x → y ∈ default [] (onSelect filters x) ↔ y ∈ default [] filters).
Proof.
  split; [|split; [|split]].
  - unfold onSelect. by destruct (if decide _ then _ else _).
  - unfold onSelect. destruct (newSet_spec (default [] filters)) as [Hnd _].
    set (s := newSet (default [] filters)) in *.
    assert (NoDup (if decide (x ∈ s) then filter (λ y, y ≠ x) s else s ++ [x])) as Hnd'.
    { case_decide.
      - by apply NoDup_filter.
      - apply NoDup_app. split; [done|]. split; [|apply NoDup_singleton].
        intros y Hy ->%list_elem_of_singleton. done. }
    by destruct (if decide _ then _ else _).
  - rewrite onSelect_elem. tauto.
  - intros y Hne. rewrite onSelect_elem. tauto.
Qed.

(** X18. Clicking the same value twice restores the selection: the filter
    state after two clicks holds the same values as before, and is [null]
    exactly when nothing was selected before. *)
Theorem onSelect_twice (filters : option (list A)) x :
  (∀ y, y ∈ default [] (onSelect (onSelect filters x) x) ↔ y ∈ default [] filters)
  ∧ (onSelect (onSelect filters x) x = None ↔ default [] filters = []).
Proof.
  assert (∀ y, y ∈ default [] (onSelect (onSelect filters x) x) ↔ y ∈ default [] filters)
    as Hel.
  { intros y. rewrite !onSelect_elem. destruct (decide (y = x)) as [->|Hne]; [|tauto].
    destruct (decide (x ∈ default [] filters)); tauto. }
  split; [done|]. split.
  - intros Hnone. rewrite Hnone in Hel. simpl in Hel.
    destruct (default [] filters) as [|y l]; [done|].
    exfalso. apply (elem_of_nil y), Hel. left.
  - intros Hnil. rewrite Hnil in Hel.
    destruct (onSelect (onSelect filters x) x) as [[|y l]|] eqn:Heq; [| |done].
    + unfold onSelect in Heq. by destruct (if decide _ then _ else _).
    + exfalso. apply (elem_of_nil y), Hel. simpl. left.
Qed.

End TopFilterFacts.

(** ** The issue board *)

Section BoardFacts.
Import Board.

Lemma groupBy_foldl {B K} `{Countable K} (key : B → K) (l : list B)
    (acc : gmap K (list B)) k :
  default [] (foldl (λ acc x, <[key x := default [] (acc !! key x) ++ [x]]> acc) acc l !! k)
  = default [] (acc !! k) ++ filter (λ x, key x = k) l.
Proof.
  revert acc. induction l as [|x l IH]; intros acc; cbn [foldl].
  - by rewrite app_nil_r.
  - rewrite IH. destruct (decide (key x = k)) as [<-|Hne].
    + rewrite lookup_insert_eq, filter_cons_True by done. simpl. by rewrite <- app_assoc.
    + rewrite lookup_insert_ne, filter_cons_False by done. done.
Qed.

Lemma column_getIssueByType issues s :
  column (getIssueByType issues) s = filter (λ i, i_status i = s) issues.
Proof.
  unfold getIssueByType, groupBy. destruct s; cbn [column by_BACKLOG by_TODO by_IN_PROGRESS
    by_DONE by_CANCELED]; by rewrite groupBy_foldl, lookup_empty.
Qed.

(** X19. The columns of the board: [getIssueByType] puts under each status
    exactly the issues of that status, in the order of the list, so every
    issue is in one column and the five columns together have as many
    issues as the list. *)
Theorem getIssueByType_columns issues :
  (∀ s, column (getIssueByType issues) s = filter (λ i, i_status i = s) issues)
  ∧ (∀ i s, i ∈ column (getIssueByType issues) s ↔ i ∈ issues ∧ i_status i = s)
  ∧ length (by_BACKLOG (getIssueByType issues)) + length (by_TODO (getIssueByType issues))
    + length (by_IN_PROGRESS (getIssueByType issues)) + length (by_DONE (getIssueByType issues))
    + length (by_CANCELED (getIssueByType issues)) = length issues.
Proof.
  split; [apply column_getIssueByType|]. split.
  - intros i s. rewrite column_getIssueByType, list_elem_of_filter. tauto.
  - change (length (column (getIssueByType issues) BACKLOG)
            + length (column (getIssueByType issues) TODO)
            + length (column (getIssueByType issues) IN_PROGRESS)
            + length (column (getIssueByType issues) DONE)
            + length (column (getIssueByType issues) CANCELED) = length issues).
    rewrite !column_getIssueByType.
    induction issues as [|i issues IH]; [done|].
    rewrite !filter_cons. destruct i as [? [] ? ?]; simpl in *; lia.
Qed.

Lemma indexOf_not_elem l x : x ∉ l → indexOf l x = (-1)%Z.
Proof.
  induction l as [|y l IH]; [done|]. rewrite not_elem_of_cons. intros [Hne Hnin].
  cbn [indexOf]. rewrite decide_False by done. rewrite IH by done. done.
Qed.

Lemma indexOf_app pre x post :
  x ∉ pre → indexOf (pre ++ x :: post) x = Z.of_nat (length pre).
Proof.
  induction pre as [|y pre IH]; cbn [indexOf app length].
  - intros _. by rewrite decide_True.
  - rewrite not_elem_of_cons. intros [Hne Hnin].
    rewrite decide_False by done. rewrite IH by done.
    rewrite decide_False by lia. lia.
Qed.

Lemma collisions_run beforeKey run post :
  Forall (λ x, Some (i_kanbanOrder x) = beforeKey) run →
  (∀ y, head post = Some y → Some (i_kanbanOrder y) ≠ beforeKey) →
  collisions beforeKey (run ++ post) = (run, i_kanbanOrder <$> head post).
Proof.
  intros Hrun Hpost. induction Hrun as [|x run Hx Hrun IH]; cbn [app].
  - destruct post as [|y post]; [done|]. cbn [collisions].
    rewrite decide_True by (by apply Hpost). done.
  - cbn [collisions]. rewrite decide_False by (intros Hne; by apply Hne). by rewrite IH.
Qed.

End BoardFacts.

Section BoardKeyFacts.
Import Board.
Variable generateNKeysBetween : option string → option string → nat → result (list string).

(** X20. [getKanbanOrderIssueUpdates] throws a TypeError when the issue to
    insert before is not in the list: lodash's [indexOf] gives -1 and the
    loop reads [issues[-1].kanbanOrder]. *)
Theorem getKanbanOrderIssueUpdates_not_found issueToMove issueToInsertBefore issues :
  issueToInsertBefore ∉ issues →
  getKanbanOrderIssueUpdates generateNKeysBetween issueToMove issueToInsertBefore issues
  = Throw "TypeError: Cannot read properties of undefined (reading 'kanbanOrder')".
Proof.
  intros Hnin. unfold getKanbanOrderIssueUpdates.
  rewrite indexOf_not_elem by done. by rewrite decide_True.
Qed.

Lemma beforeKey_app (pre rest : list Issue) :
  (if decide (Z.of_nat (length pre) > 0)%Z
   then i_kanbanOrder <$> (pre ++ rest) !! Z.to_nat (Z.of_nat (length pre) - 1)
   else None)
  = i_kanbanOrder <$> last pre.
Proof.
  destruct pre as [|x pre _] using rev_ind; [done|].
  rewrite length_app. cbn [length]. rewrite decide_True by lia.
  rewrite last_snoc.
  replace (Z.to_nat (Z.of_nat (length pre + 1) - 1)) with (length pre) by lia.
  rewrite <- app_assoc. cbn [app]. by rewrite list_lookup_middle.
Qed.

(** X21. What [getKanbanOrderIssueUpdates] asks for and returns.  Let the
    list be [pre ++ run ++ post] where the issue to insert before is the
    first issue after [pre] and does not occur in [pre], [run] is the issues
    from there on that share the kanbanOrder of the last issue of [pre], and
    [post] starts with another kanbanOrder or is empty.  Then the keys are
    generated between the kanbanOrder of the last issue of [pre] (null when
    [pre] is empty) and that of the first issue of [post] (null when [post]
    is empty), one for the moved issue and one for each issue of [run]; the
    result gives the first key to the moved issue and the following keys to
    the issues of [run], in order. *)
Theorem getKanbanOrderIssueUpdates_found issueToMove issueToInsertBefore pre run post keys :
  issueToInsertBefore ∉ pre →
  head (run ++ post) = Some issueToInsertBefore →
  Forall (λ x, Some (i_kanbanOrder x) = i_kanbanOrder <$> last pre) run →
  (∀ y, head post = Some y → Some (i_kanbanOrder y) ≠ i_kanbanOrder <$> last pre) →
  generateNKeysBetween (i_kanbanOrder <$> last pre) (i_kanbanOrder <$> head post)
                       (length run + 1) = Ok keys →
  getKanbanOrderIssueUpdates generateNKeysBetween issueToMove issueToInsertBefore
                             (pre ++ run ++ post)
  = Ok (mkIssueUpdate issueToMove (mkChanges (Some (keys !! 0%nat)) None None)
        :: imap (λ i issue,
                   mkIssueUpdate issue (mkChanges (Some (keys !! (i + 1)%nat)) None None))
                run).
Proof.
  intros Hnin Hhead Hrun Hpost Hkeys. unfold getKanbanOrderIssueUpdates.
  destruct (run ++ post) as [|x rest] eqn:Hrest; [done|].
  injection Hhead as ->.
  rewrite indexOf_app by done. rewrite beforeKey_app.
  rewrite decide_False by lia. rewrite Nat2Z.id, drop_app_length.
  rewrite <- Hrest, collisions_run by done. by rewrite Hkeys.
Qed.

Lemma collisions_subseteq beforeKey l : fst (collisions beforeKey l) ⊆ l.
Proof.
  induction l as [|x l IH]; cbn [collisions]; [done|].
  case_decide; [apply list_subseteq_nil|].
  destruct (collisions beforeKey l) as [r a]. simpl in *.
  intros y [->|Hy]%elem_of_cons; [left|right; by apply IH].
Qed.

Lemma getKanbanOrderIssueUpdates_Ok issueToMove issueToInsertBefore issues updates :
  getKanbanOrderIssueUpdates generateNKeysBetween issueToMove issueToInsertBefore issues
  = Ok updates →
  ∃ first rest, updates = first :: rest
    ∧ u_issue first = issueToMove
    ∧ ch_status (u_issueChanges first) = None
    ∧ ch_priority (u_issueChanges first) = None
    ∧ Forall (λ u, u_issue u ∈ issues ∧ ch_status (u_issueChanges u) = None
                   ∧ ch_priority (u_issueChanges u) = None) rest.
Proof.
  unfold getKanbanOrderIssueUpdates. case_decide; [done|].
  pose proof (collisions_subseteq
    (if decide (indexOf issues issueToInsertBefore > 0)%Z
     then i_kanbanOrder <$> issues !! Z.to_nat (indexOf issues issueToInsertBefore - 1)
     else None)
    (drop (Z.to_nat (indexOf issues issueToInsertBefore)) issues)) as Hsub.
  destruct (collisions _ _) as [rekey afterKey]. cbn [fst] in Hsub.
  destruct (generateNKeysBetween _ _ _) as [keys|e]; [|done].
  intros [= <-]. eexists _, _. split; [done|]. do 3 (split; [done|]).
  apply Forall_forall. intros u (i & x & -> & Hx)%elem_of_lookup_imap. simpl.
  split; [|done]. apply list_elem_of_lookup_2 in Hx. apply Hsub in Hx.
  by apply (subseteq_drop (Z.to_nat (indexOf issues issueToInsertBefore))).
Qed.

(** X22. Drops that send nothing: with no destination, and when a card is
    dropped on the slot it came from, [handleDragEnd] returns without a call
    of [onUpdateIssues]. *)
Theorem handleDragEnd_no_update issues drop :
  destination drop = None ∨ destination drop = Some (source drop) →
  handleDragEnd generateNKeysBetween issues drop = Ok None.
Proof.
  unfold handleDragEnd. intros [->| ->]; [done|].
  destruct (column _ _ !! _) as [dragged|] eqn:Hd; [|done].
  destruct (decide (droppableId (source drop) = droppableId (source drop)
                    ∧ index (source drop) < index (source drop))) as [[_ ?]|_]; [lia|].
  by rewrite Hd, decide_True.
Qed.

(** X23. A drop below the last card of a column gives the card no new
    kanbanOrder: when the slot to insert before is empty, the single update
    sent carries the new status if the column changed and nothing else; for
    a card dragged down to the bottom of its own column it carries no change
    at all. *)
Theorem handleDragEnd_past_end issues drop dest dragged :
  destination drop = Some dest →
  column (getIssueByType issues) (droppableId (source drop)) !! index (source drop)
  = Some dragged →
  (droppableId (source drop) ≠ droppableId dest →
   length (column (getIssueByType issues) (droppableId dest)) ≤ index dest →
   handleDragEnd generateNKeysBetween issues drop
   = Ok (Some [mkIssueUpdate dragged (mkChanges None (Some (droppableId dest)) None)]))
  ∧ (droppableId (source drop) = droppableId dest →
     index (source drop) < index dest →
     length (column (getIssueByType issues) (droppableId dest)) ≤ index dest + 1 →
     handleDragEnd generateNKeysBetween issues drop
     = Ok (Some [mkIssueUpdate dragged (mkChanges None None None)])).
Proof.
  intros Hdest Hdrag. unfold handleDragEnd. rewrite Hdest, Hdrag. split.
  - intros Hne Hlen.
    destruct (decide (droppableId (source drop) = droppableId dest
                      ∧ index (source drop) < index dest)) as [[? _]|_]; [done|].
    rewrite (lookup_ge_None_2 _ _ Hlen).
    destruct (decide (Some dragged = None)) as [|_]; [done|].
    destruct (decide (droppableId dest ≠ droppableId (source drop))) as [_|Hn]; [done|].
    destruct Hn. congruence.
  - intros Heq Hlt Hlen.
    destruct (decide (droppableId (source drop) = droppableId dest
                      ∧ index (source drop) < index dest)) as [_|Hn]; [|by destruct Hn].
    rewrite (lookup_ge_None_2 _ _ Hlen).
    destruct (decide (Some dragged = None)) as [|_]; [done|].
    destruct (decide (droppableId dest ≠ droppableId (source drop))) as [Hn|_]; [|done].
    destruct Hn. congruence.
Qed.

(** X24. What a drop may change: whenever [handleDragEnd] calls
    [onUpdateIssues], the first update is for the dragged card and sets its
    status exactly when the card changed column; every further update is
    for an issue of the list and changes neither status nor priority. *)
Theorem handleDragEnd_updates issues drop updates :
  handleDragEnd generateNKeysBetween issues drop = Ok (Some updates) →
  ∃ dest first rest,
    destination drop = Some dest
    ∧ updates = first :: rest
    ∧ column (getIssueByType issues) (droppableId (source drop)) !! index (source drop)
      = Some (u_issue first)
    ∧ ch_status (u_issueChanges first)
      = (if decide (droppableId dest ≠ droppableId (source drop))
         then Some (droppableId dest) else None)
    ∧ ch_priority (u_issueChanges first) = None
    ∧ Forall (λ u, u_issue u ∈ issues ∧ ch_status (u_issueChanges u) = None
                   ∧ ch_priority (u_issueChanges u) = None) rest.
Proof.
  unfold handleDragEnd. destruct (destination drop) as [dest|]; [|done].
  destruct (column _ _ !! index (source drop)) as [dragged|] eqn:Hd; [|done].
  case_decide as Hsame; [done|]. clear Hsame.
  set (before := column _ _ !! _).
  assert (∃ ups, (match before with
                  | Some b => getKanbanOrderIssueUpdates generateNKeysBetween dragged b issues
                  | None => Ok [mkIssueUpdate dragged (mkChanges None None None)]
                  end) = ups) as [ups Hups] by eauto.
  rewrite Hups. destruct ups as [us|e]; [|done].
  assert (∃ first rest, us = first :: rest
            ∧ u_issue first = dragged
            ∧ ch_status (u_issueChanges first) = None
            ∧ ch_priority (u_issueChanges first) = None
            ∧ Forall (λ u, u_issue u ∈ issues ∧ ch_status (u_issueChanges u) = None
                           ∧ ch_priority (u_issueChanges u) = None) rest)
    as (first & rest & -> & Hf1 & Hf2 & Hf3 & Hrest).
  { destruct before as [b|].
    - by apply getKanbanOrderIssueUpdates_Ok in Hups.
    - injection Hups as <-. eexists _, _. split; [done|]. repeat split; done. }
  destruct (decide (droppableId dest ≠ droppableId (source drop))) as [Hcol|Hcol];
    intros [= <-]; exists dest; eexists _, _;
    (split; [done|]); (split; [done|]); cbn [u_issue u_issueChanges ch_status ch_priority];
    rewrite ?Hf1, ?Hf2, ?Hf3.
  - by rewrite decide_True.
  - by rewrite decide_False.
Qed.

End BoardKeyFacts.

(** ** The client on concrete inputs *)

Section ClientRuns.
Import TopFilter Board.

(** HIGH is selected; LOW is clicked. *)
Lemma onSelect_toggles_witness :
  HIGH ∈ default [] (onSelectPriority (Some [HIGH]) LOW)
  ∧ LOW ∈ default [] (onSelectPriority (Some [HIGH]) LOW).
Proof.
  destruct (onSelect_toggles (Some [HIGH]) LOW) as (_ & _ & Hx & Hy). split.
  - apply Hy; [discriminate|]. simpl. left.
  - apply Hx. simpl. intros Hin. apply list_elem_of_singleton in Hin. discriminate.
Defined.

(** The issue to insert before belongs to another list. *)
Lemma getKanbanOrderIssueUpdates_not_found_witness :
  getKanbanOrderIssueUpdates (λ _ _ n, Ok (replicate n "a1"))
    (mkIssue "i1" TODO NONE "a0") (mkIssue "i2" TODO NONE "a2") [mkIssue "i3" TODO NONE "a3"]
  = Throw "TypeError: Cannot read properties of undefined (reading 'kanbanOrder')".
Proof.
  apply getKanbanOrderIssueUpdates_not_found.
  intros Hin. apply list_elem_of_singleton in Hin. discriminate.
Defined.

(** "i2" and "i3" share the kanbanOrder of "i1": both get a new key. *)
Lemma getKanbanOrderIssueUpdates_found_witness :
  let i1 := mkIssue "i1" TODO NONE "a1" in
  let i2 := mkIssue "i2" TODO NONE "a1" in
  let i3 := mkIssue "i3" TODO NONE "a1" in
  let i4 := mkIssue "i4" TODO NONE "a4" in
  let moved := mkIssue "i9" DONE NONE "a9" in
  getKanbanOrderIssueUpdates (λ _ _ n, Ok (replicate n "a2")) moved i2 [i1; i2; i3; i4]
  = Ok [mkIssueUpdate moved (mkChanges (Some (Some "a2")) None None);
        mkIssueUpdate i2 (mkChanges (Some (Some "a2")) None None);
        mkIssueUpdate i3 (mkChanges (Some (Some "a2")) None None)].
Proof.
  intros i1 i2 i3 i4 moved.
  apply (getKanbanOrderIssueUpdates_found (λ _ _ n, Ok (replicate n "a2"))
           moved i2 [i1] [i2; i3] [i4] ["a2"; "a2"; "a2"]).
  - intros Hin. apply list_elem_of_singleton in Hin. discriminate.
  - reflexivity.
  - repeat constructor.
  - intros y [= <-]. discriminate.
  - reflexivity.
Defined.

Lemma handleDragEnd_no_update_witness :
  handleDragEnd (λ _ _ n, Ok (replicate n "a1")) [mkIssue "i1" TODO NONE "a1"]
    (mkDropResult (mkLocation TODO 0) (Some (mkLocation TODO 0)))
  = Ok None.
Proof. apply handleDragEnd_no_update. right. reflexivity. Defined.

(** The first of two cards of a column is dragged onto the second. *)
Lemma handleDragEnd_past_end_witness :
  let i1 := mkIssue "i1" TODO NONE "a1" in
  let i2 := mkIssue "i2" TODO NONE "a2" in
  handleDragEnd (λ _ _ n, Ok (replicate n "a3")) [i1; i2]
    (mkDropResult (mkLocation TODO 0) (Some (mkLocation TODO 1)))
  = Ok (Some [mkIssueUpdate i1 (mkChanges None None None)]).
Proof.
  intros i1 i2.
  destruct (handleDragEnd_past_end (λ _ _ n, Ok (replicate n "a3")) [i1; i2]
              (mkDropResult (mkLocation TODO 0) (Some (mkLocation TODO 1)))
              (mkLocation TODO 1) i1 eq_refl eq_refl) as [_ Hsame].
  apply Hsame; [reflexivity|simpl; lia|vm_compute; lia].
Defined.

(** A card of TODO is dropped on the first card of DONE. *)
Lemma handleDragEnd_updates_witness :
  let i1 := mkIssue "i1" TODO NONE "a1" in
  let i2 := mkIssue "i2" DONE NONE "a2" in
  ∃ first rest,
    handleDragEnd (λ _ _ n, Ok (replicate n "a0")) [i1; i2]
      (mkDropResult (mkLocation TODO 0) (Some (mkLocation DONE 0)))
    = Ok (Some (first :: rest))
    ∧ u_issue first = i1
    ∧ ch_status (u_issueChanges first) = Some DONE.
Proof.
  intros i1 i2.
  destruct (handleDragEnd_updates (λ _ _ n, Ok (replicate n "a0")) [i1; i2]
              (mkDropResult (mkLocation TODO 0) (Some (mkLocation DONE 0)))
              [mkIssueUpdate i1 (mkChanges (Some (Some "a0")) (Some DONE) None)] eq_refl)
    as (dest & first & rest & Hdest & Hups & Hfirst & Hstatus & _).
  injection Hdest as <-. injection Hups as <- <-.
  eexists _, _. split; [reflexivity|]. split; reflexivity.
Defined.

End ClientRuns.
